(** * hybrid.decomposers: a shallow embedding and its properties

    The development follows [src/hybrid/decomposers.py].  Python objects
    that are mutated in place ([self], sets, iterators) are threaded
    explicitly: every method takes the decomposer and returns the
    decomposer it leaves behind, also when it raises.

    Conventions
    - variable labels and graph nodes are natural numbers;
    - sizes and lengths are natural numbers (they count variables);
    - a Python float (a bias, an energy, [rolling_history]) is the
      rational it stands for, a [Qc]; the one float operation of the
      module, the product [rolling_history * len(bqm)], is rounded as
      the machine rounds it ([float_mul]);
    - [state.samples.change_vartype] converts the samples in place: the
      state that a call returns holds the converted samples
      ([converted]);
    - a Python [set] is a [gset], a [dict] whose order matters is an
      association list with distinct keys, a [dict] compared with [==]
      is compared as a finite map. *)

From Stdlib Require Import QArith Qcanon Qround Qpower.
From stdpp Require Import base numbers gmap sets list strings.

Local Open Scope nat_scope.

(** ** Exceptions and results

    What a call raises, by the class of the exception.  [EndOfStream] is
    [hybrid.exceptions.EndOfStream], the signal that the module raises by
    name (line 258); [StopIteration] is the builtin that [next] raises on
    an exhausted iterator.  [OutOfFuel] belongs to the model: the step
    budget of a search ran out. *)

Inductive exn :=
| ValueError
| TypeError
| IndexError
| KeyError
| AttributeError
| NotImplementedError
| StopIteration
| EndOfStream
| NetworkXError
| OutOfFuel.

Inductive result (A : Type) :=
| Ok (a : A)
| Raise (e : exn).

Arguments Ok {A} a.
Arguments Raise {A} e.

#[global] Instance result_ret : MRet result := fun A a => Ok a.
#[global] Instance result_bind : MBind result := fun A B k r =>
  match r with
  | Ok a => k a
  | Raise e => Raise e
  end.
#[global] Instance result_fmap : FMap result := fun A B f r =>
  match r with
  | Ok a => Ok (f a)
  | Raise e => Raise e
  end.

#[global] Instance exn_eq_dec : EqDecision exn.
Proof. solve_decision. Defined.

Definition is_ok {A} (r : result A) : bool :=
  match r with
  | Ok _ => true
  | Raise _ => false
  end.

(** ** Ordered dictionaries

    [collections.OrderedDict] and the insertion-ordered [dict]: an
    association list; writing an existing key keeps its position. *)

Section odict.
Context {K : Type} `{EqDecision K} {V : Type}.

Fixpoint od_set (k : K) (v : V) (d : list (K * V)) : list (K * V) :=
  match d with
  | [] => [(k, v)]
  | (k', v') :: d' =>
      if decide (k' = k) then (k, v) :: d' else (k', v') :: od_set k v d'
  end.

Definition od_from_pairs (l : list (K * V)) : list (K * V) :=
  foldl (fun d p => od_set p.1 p.2 d) [] l.

Fixpoint od_get (d : list (K * V)) (k : K) : option V :=
  match d with
  | [] => None
  | (k', v) :: d' => if decide (k' = k) then Some v else od_get d' k
  end.

Definition od_keys (d : list (K * V)) : list K := d.*1.
End odict.

(** ** Python floats

    A float is a binary64 number, kept here as the rational it stands
    for.  [fl x] is the float nearest to [x]: [x] rounded to 53
    significant bits, halves to the even neighbour.  The exponent is not
    bounded.  For the product below that loses nothing: a float is a
    multiple of [2^-1074], so is its product with an integer, and such a
    number below [2^-1022] is a float already (the subnormal range is
    met exactly, never rounded); and the product of a [rolling_history]
    that [__init__] accepts, at most 1, with a length stays far below
    the largest float. *)

(** [2 ^ e], also for negative [e]. *)
Definition pow2 (e : Z) : Qc := Q2Qc (2 ^ e)%Q.

(** The integer part of the binary logarithm of a positive rational:
    one of the two candidates that the bit lengths of numerator and
    denominator leave. *)
Definition ilog2 (x : Qc) : Z :=
  let e := (Z.log2 (Qnum x) - Z.log2 (Zpos (Qden x)))%Z in
  if bool_decide (pow2 e <= x)%Qc then e else (e - 1)%Z.

(** To the nearest integer, halves to the even one. *)
Definition round_half_even (m : Qc) : Z :=
  let f := Qfloor m in
  let r := (m - Qc_of_Z f)%Qc in
  if bool_decide (r < Q2Qc (1 # 2))%Qc then f
  else if bool_decide (Q2Qc (1 # 2) < r)%Qc then (f + 1)%Z
  else if Z.even f then f else (f + 1)%Z.

(** A positive [x] as [m * 2^e] with [2^52 <= m < 2^53], [m] rounded. *)
Definition round_positive (x : Qc) : Qc :=
  let e := (ilog2 x - 52)%Z in
  (Qc_of_Z (round_half_even (x * pow2 (- e))) * pow2 e)%Qc.

Definition fl (x : Qc) : Qc :=
  if bool_decide (x = 0)%Qc then 0%Qc
  else if bool_decide (x < 0)%Qc then (- round_positive (- x))%Qc
  else round_positive x.

(** [x * n] for a float [x] and an [int] [n]: Python converts [n] to the
    nearest float ([n] itself below [2^53]) and multiplies as the machine
    does, which gives the float nearest to the product of the two
    floats. *)
Definition float_mul (x : Qc) (n : nat) : Qc :=
  fl (x * fl (Qc_of_Z (Z.of_nat n))).

(** ** networkx graphs

    [nx.Graph] keeps a dict of dicts; only the keys matter here.  A node
    maps to the list of its neighbours, both in insertion order. *)

Definition Graph := list (nat * list nat).

Definition has_node (g : Graph) (u : nat) : bool := bool_decide (u ∈ g.*1).

Definition add_node (u : nat) (g : Graph) : Graph :=
  if has_node g u then g else g ++ [(u, [])].

Definition add_half (u v : nat) (g : Graph) : Graph :=
  (fun p : nat * list nat =>
     if decide (p.1 = u)
     then (p.1, if decide (v ∈ p.2) then p.2 else p.2 ++ [v])
     else p) <$> g.

(** [G.add_edge(u, v)] *)
Definition add_edge (u v : nat) (g : Graph) : Graph :=
  add_half v u (add_half u v (add_node v (add_node u g))).

(** [G.remove_nodes_from(nodes)]: absent nodes are ignored *)
Definition remove_nodes_from (g : Graph) (nodes : gset nat) : Graph :=
  (fun p : nat * list nat => (p.1, filter (fun v => v ∉ nodes) p.2))
    <$> filter (fun p : nat * list nat => p.1 ∉ nodes) g.

(** [G.neighbors(u)] *)
Definition neighbors (g : Graph) (u : nat) : result (list nat) :=
  match od_get g u with
  | Some ns => Ok ns
  | None => Raise NetworkXError
  end.

(** [G[u]] *)
Definition getitem (g : Graph) (u : nat) : result (list nat) :=
  match od_get g u with
  | Some ns => Ok ns
  | None => Raise KeyError
  end.

(** Every label that occurs in some adjacency list. *)
Definition targets (g : Graph) : gset nat := list_to_set (mjoin g.*2).

(** Enough steps for a search that handles every node once. *)
Definition search_fuel (g : Graph) : nat := S (size (targets g)).

(** *** [nx.bfs_edges]

    The children of [parent] that were not seen yet, in adjacency order. *)
Fixpoint bfs_children (children : list nat) (seen : gset nat)
    : list nat * gset nat :=
  match children with
  | [] => ([], seen)
  | c :: cs =>
      if decide (c ∈ seen) then bfs_children cs seen
      else let r := bfs_children cs ({[c]} ∪ seen) in (c :: r.1, r.2)
  end.

Fixpoint bfs_loop (fuel : nat) (g : Graph) (queue : list nat) (seen : gset nat)
    : result (list (nat * nat)) :=
  match queue with
  | [] => Ok []
  | parent :: rest =>
      match fuel with
      | 0 => Raise OutOfFuel
      | S fuel' =>
          let r := bfs_children (default [] (od_get g parent)) seen in
          edges ← bfs_loop fuel' g (rest ++ r.1) r.2;
          Ok (((fun c => (parent, c)) <$> r.1) ++ edges)
      end
  end.

(** The generator raises on its first step when [source] is not a node. *)
Definition bfs_edges (g : Graph) (source : nat) : result (list (nat * nat)) :=
  _ ← neighbors g source;
  bfs_loop (search_fuel g) g [source] {[source]}.

(** [itertools.islice(gen, n)]: with [n = 0] the generator is never run. *)
Definition islice {A} (gen : result (list A)) (n : nat) : result (list A) :=
  match n with
  | 0 => Ok []
  | _ => take n <$> gen
  end.

(** ** dimod: models, samples and sample sets *)

Inductive Vartype := SPIN | BINARY.

#[global] Instance Vartype_eq_dec : EqDecision Vartype.
Proof. solve_decision. Defined.

(** [dimod.BinaryQuadraticModel]: [linear] and [quadratic] are dicts, kept
    in insertion order. *)
Record BQM := {
  linear : list (nat * Qc);
  quadratic : list (nat * nat * Qc);
  offset : Qc;
  vartype : Vartype
}.

(** [len(bqm)] *)
Definition len (bqm : BQM) : nat := length (linear bqm).

Definition variables (bqm : BQM) : list nat := od_keys (linear bqm).

Definition edge_key (e : nat * nat * Qc) : (nat * nat) * Qc :=
  ((e.1.1 `min` e.1.2, e.1.1 `max` e.1.2), e.2).

(** [bqm == other]: same vartype, offset and biases; dicts compare
    regardless of order. *)
Definition bqm_eqb (a b : BQM) : bool :=
  bool_decide (vartype a = vartype b)
  && bool_decide (offset a = offset b)
  && bool_decide ((list_to_map (linear a) : gmap nat Qc) = list_to_map (linear b))
  && bool_decide ((list_to_map (edge_key <$> quadratic a) : gmap (nat * nat) Qc)
                  = list_to_map (edge_key <$> quadratic b)).

(** [bqm != cached] where [cached] may be [None] *)
Definition bqm_differs (bqm : BQM) (cached : option BQM) : bool :=
  match cached with
  | None => true
  | Some b => negb (bqm_eqb bqm b)
  end.

(** [bqm.to_networkx_graph()] *)
Definition to_networkx_graph (bqm : BQM) : Graph :=
  foldl (fun g e => add_edge e.1.1 e.1.2 g)
        (foldl (fun g v => add_node v g) [] (variables bqm))
        (quadratic bqm).

Abbreviation Sample := (gmap nat Z).

(** [sample != cached] where [cached] may be [None] *)
Definition sample_differs (sample : Sample) (cached : option Sample) : bool :=
  match cached with
  | None => true
  | Some s => negb (bool_decide (sample = s))
  end.

(** [dimod.SampleSet]: samples with their energies. *)
Record SampleSet := {
  ss_records : list (Sample * Qc);
  ss_vartype : Vartype
}.

Definition convert_value (source target : Vartype) (x : Z) : Z :=
  match source, target with
  | SPIN, BINARY => ((x + 1) / 2)%Z
  | BINARY, SPIN => (2 * x - 1)%Z
  | _, _ => x
  end.

(** What [samples.change_vartype(vartype)] makes of the sample set (in
    place, see [converted]): the values are translated, the energies
    stay ([energy_offset] is 0). *)
Definition change_vartype (vt : Vartype) (ss : SampleSet) : SampleSet :=
  {| ss_records :=
       (fun r : Sample * Qc => (convert_value (ss_vartype ss) vt <$> r.1, r.2))
         <$> ss_records ss;
     ss_vartype := vt |}.

(** [samples.first]: the record of lowest energy, the earliest among equals;
    an empty sample set has none. *)
Definition ss_first (ss : SampleSet) : result (Sample * Qc) :=
  match ss_records ss with
  | [] => Raise ValueError
  | r :: rs =>
      Ok (foldl (fun m x : Sample * Qc =>
                   if bool_decide (x.2 < m.2)%Qc then x else m) r rs)
  end.

(** [state.samples.change_vartype(bqm.vartype).first.sample] *)
Definition best_sample (bqm : BQM) (ss : SampleSet) : result Sample :=
  fst <$> ss_first (change_vartype (vartype bqm) ss).

(** ** hybrid.core.State *)

Abbreviation Embedding := (list (nat * list nat)).

Record State := {
  problem : BQM;
  samples : SampleSet;
  subproblem : option BQM;
  embedding : option Embedding
}.

(** The state once a decomposer has run
    [state.samples.change_vartype(state.problem.vartype)] on it: dimod
    converts the sample set in place and returns it, so the state, and
    every state made from it by [updated], holds the converted samples
    from then on.  A decomposer that is called again with the same state
    object reads the converted samples; that gives it the sample it got
    the first time ([best_sample_converted]). *)
Definition converted (state : State) : State :=
  {| problem := problem state;
     samples := change_vartype (vartype (problem state)) (samples state);
     subproblem := subproblem state; embedding := embedding state |}.

(** [state.updated(subproblem=...)] *)
Definition updated_subproblem (state : State) (sub : BQM) : State :=
  {| problem := problem state; samples := samples state;
     subproblem := Some sub; embedding := embedding state |}.

(** [state.updated(subproblem=..., embedding=...)] *)
Definition updated_subproblem_embedding (state : State) (sub : BQM)
    (emb : Embedding) : State :=
  {| problem := problem state; samples := samples state;
     subproblem := Some sub; embedding := Some emb |}.

(** ** hybrid.utils

    The decomposers import four helpers from [hybrid.utils], which is
    not among the sources: they are parameters of the development.
    [select_random_subgraph] draws at random; its first argument is the
    state of the generator. *)
Class HybridUtils := {
  flip_energy_gains : BQM -> Sample -> option Qc -> list (Qc * nat);
  bqm_induced_by : BQM -> list nat -> Sample -> result BQM;
  select_random_subgraph : nat -> BQM -> nat -> list nat;
  chimera_tiles : BQM -> nat -> nat -> nat -> list ((nat * nat) * Embedding)
}.

(** [logger.debug] records *)
Inductive log_record :=
| LogAdapting
| LogRollingReset (unrolled : nat)
| LogSelected (count : nat) (next_vars : list nat).

(** [random.choice(seq)]; [rnd] is the draw. *)
Definition random_choice {A} (rnd : nat) (l : list A) : result A :=
  match l !! (rnd `mod` length l) with
  | Some x => Ok x
  | None => Raise IndexError
  end.

(** ** IdentityDecomposer *)

Module IdentityDecomposer.

Definition next (state : State) : State :=
  updated_subproblem state (problem state).

End IdentityDecomposer.

(** ** EnergyImpactDecomposer *)

Module EnergyImpactDecomposer.

(** A priority-queue entry [(-priority, counter, node)]. *)
Definition entry := (Qc * nat * nat)%type.

(** Tuple comparison: never reaches the node, counters are distinct. *)
Definition entry_lt (a b : entry) : bool :=
  bool_decide (a.1.1 < b.1.1)%Qc
  || (bool_decide (a.1.1 = b.1.1) && bool_decide (a.1.2 < b.1.2)).

Fixpoint remove_entry (e : entry) (q : list entry) : list entry :=
  match q with
  | [] => []
  | x :: q' => if decide (x = e) then q' else x :: remove_entry e q'
  end.

(** [heappop(queue)]: the least entry and the queue without it. *)
Definition heappop (queue : list entry) : option (entry * list entry) :=
  match queue with
  | [] => None
  | e :: q' =>
      let m := foldl (fun m x => if entry_lt x m then x else m) e q' in
      Some (m, remove_entry m queue)
  end.

(** [push(priority(node), node)]; negating [None] is a [TypeError]. *)
Definition push (priority : nat -> option Qc) (node : nat)
    (queue : list entry) (counter : nat) : result (list entry * nat) :=
  match priority node with
  | None => Raise TypeError
  | Some p => Ok (queue ++ [((- p)%Qc, counter, node)], S counter)
  end.

(** The [for neighbor in graph[node]] loop of [_pfs_nodes]. *)
Fixpoint pfs_for (priority : nat -> option Qc) (nbrs : list nat)
    (queue : list entry) (counter : nat) (enqueued : gset nat)
    : result (list entry * nat * gset nat) :=
  match nbrs with
  | [] => Ok (queue, counter, enqueued)
  | neighbor :: rest =>
      if decide (neighbor ∈ enqueued)
      then pfs_for priority rest queue counter enqueued
      else
        qc ← push priority neighbor queue counter;
        pfs_for priority rest qc.1 qc.2 ({[neighbor]} ∪ enqueued)
  end.

(** The [while queue and len(visited) < size] loop of [_pfs_nodes]. *)
Fixpoint pfs_while (fuel : nat) (graph : Graph) (priority : nat -> option Qc)
    (sz : nat) (queue : list entry) (counter : nat)
    (visited enqueued : gset nat) : result (gset nat) :=
  match heappop queue with
  | None => Ok visited
  | Some (e, queue1) =>
      if bool_decide (size visited < sz) then
        match fuel with
        | 0 => Raise OutOfFuel
        | S fuel' =>
            let node := e.2 in
            if decide (node ∈ visited)
            then pfs_while fuel' graph priority sz queue1 counter
                   visited enqueued
            else
              nbrs ← getitem graph node;
              st ← pfs_for priority nbrs queue1 counter enqueued;
              pfs_while fuel' graph priority sz st.1.1 st.1.2
                ({[node]} ∪ visited) st.2
        end
      else Ok visited
  end.

(** The search methods handed to [_iterative_graph_search]; [list(...)]
    of what they return. *)
Definition Method := Graph -> nat -> nat -> (nat -> option Qc) -> result (list nat).

Definition _bfs_nodes : Method := fun graph source sz _ =>
  if bool_decide (sz < 1) then Ok []
  else
    found ← islice ((fun es : list (nat * nat) => es.*2)
                      <$> bfs_edges graph source) (sz - 1);
    Ok (source :: found).

Definition _pfs_nodes : Method := fun graph source sz priority =>
  if bool_decide (sz < 1) then Ok []
  else
    qc ← push priority source [] 0;
    visited ← pfs_while (search_fuel graph) graph priority sz qc.1 qc.2 ∅ ∅;
    Ok (elements visited).

(** A traversal: [(bqm, sample, ordered_priority, visited, size)]. *)
Definition Traverser :=
  BQM -> Sample -> list (nat * Qc) -> gset nat -> nat -> result (list nat).

Definition _energy : Traverser := fun bqm sample ordered_priority visited sz =>
  Ok (take sz (filter (fun v => v ∉ visited) (od_keys ordered_priority))).

(** The [while len(variables) < size and len(graph)] loop; [order] is
    what is left of [iter(ordered_priority)]. *)
Fixpoint search_loop (method : Method) (ordered_priority : list (nat * Qc))
    (visited : gset nat) (sz : nat) (graph : Graph) (vars : gset nat)
    (order : list nat) : result (gset nat) :=
  if bool_decide (size vars < sz) && bool_decide (length graph ≠ 0) then
    match order with
    | [] => Ok vars
    | source :: order' =>
        if bool_decide (source ∈ visited) || bool_decide (source ∈ vars)
        then search_loop method ordered_priority visited sz graph vars order'
        else
          nodes ← method graph source (sz - size vars) (od_get ordered_priority);
          search_loop method ordered_priority visited sz
            (remove_nodes_from graph (list_to_set nodes))
            (list_to_set nodes ∪ vars) order'
    end
  else Ok vars.

Definition _iterative_graph_search (method : Method) : Traverser :=
  fun bqm sample ordered_priority visited sz =>
    let graph := remove_nodes_from (to_networkx_graph bqm) visited in
    elements <$> search_loop method ordered_priority visited sz graph ∅
                   (od_keys ordered_priority).

Record t := {
  self_size : nat;
  min_gain : option Qc;
  rolling : bool;
  rolling_history : Qc;
  silent_rewind : bool;
  traverse : Traverser;
  _unrolled_vars : gset nat;
  _rolling_bqm : option BQM;
  _rolling_sample : option Sample;
  _variable_priority : list (nat * Qc);
  _prev_sample : option Sample
}.

Definition traversers (traversal : string) : option Traverser :=
  if decide (traversal = "energy") then Some _energy
  else if decide (traversal = "bfs") then Some (_iterative_graph_search _bfs_nodes)
  else if decide (traversal = "pfs") then Some (_iterative_graph_search _pfs_nodes)
  else None.

Definition __init__ (sz : nat) (min_gain : option Qc) (rolling : bool)
    (rolling_history : Qc) (silent_rewind : bool) (traversal : string)
    : result t :=
  if (rolling && bool_decide (rolling_history < 0)%Qc)
     || bool_decide (1 < rolling_history)%Qc
  then Raise ValueError
  else
    match traversers traversal with
    | None => Raise ValueError
    | Some tr =>
        Ok {| self_size := sz; min_gain := min_gain; rolling := rolling;
              rolling_history := rolling_history;
              silent_rewind := silent_rewind; traverse := tr;
              _unrolled_vars := ∅; _rolling_bqm := None;
              _rolling_sample := None; _variable_priority := [];
              _prev_sample := None |}
    end.

Definition set_rolling (self : t) (unrolled : gset nat) (bqm : option BQM)
    (sample : option Sample) : t :=
  {| self_size := self_size self; min_gain := min_gain self;
     rolling := rolling self; rolling_history := rolling_history self;
     silent_rewind := silent_rewind self; traverse := traverse self;
     _unrolled_vars := unrolled; _rolling_bqm := bqm;
     _rolling_sample := sample;
     _variable_priority := _variable_priority self;
     _prev_sample := _prev_sample self |}.

Definition set_cache (self : t) (priority : list (nat * Qc))
    (prev : option Sample) : t :=
  {| self_size := self_size self; min_gain := min_gain self;
     rolling := rolling self; rolling_history := rolling_history self;
     silent_rewind := silent_rewind self; traverse := traverse self;
     _unrolled_vars := _unrolled_vars self; _rolling_bqm := _rolling_bqm self;
     _rolling_sample := _rolling_sample self;
     _variable_priority := priority;
     _prev_sample := prev |}.

(** [state.sample] is not a field of the state: the attribute reads as
    [None]. *)
Definition _rewind_rolling (self : t) (state : State) : t :=
  set_rolling self ∅ (Some (problem state)) None.

(** [len(self._unrolled_vars) >= self.rolling_history * len(bqm)]: the
    product is a float product; Python compares an [int] with a float
    by their exact values. *)
Definition history_reached (self : t) (bqm : BQM) : bool :=
  bool_decide (float_mul (rolling_history self) (len bqm)
               <= Qc_of_Z (Z.of_nat (size (_unrolled_vars self))))%Qc.

Section next.
Context `{HybridUtils}.

(** Lines 260-274: pick the variables, remember them, induce. *)
Definition select (self : t) (state : State) (sample : Sample)
    (log : list log_record) : t * list log_record * result State :=
  let bqm := problem state in
  match traverse self bqm sample (_variable_priority self)
          (_unrolled_vars self) (self_size self) with
  | Raise e => (self, log, Raise e)
  | Ok next_vars =>
      let log := log ++ [LogSelected (length next_vars) next_vars] in
      let self :=
        if rolling self
        then set_rolling self (list_to_set next_vars ∪ _unrolled_vars self)
               (_rolling_bqm self) (_rolling_sample self)
        else self in
      (self, log,
       subbqm ← bqm_induced_by bqm next_vars sample;
       Ok (updated_subproblem (converted state) subbqm))
  end.

(** Lines 248-249: the ranking as an ordered dict, variable to energy. *)
Definition ranking (bqm : BQM) (sample : Sample) (min_gain : option Qc)
    : list (nat * Qc) :=
  let impact := flip_energy_gains bqm sample min_gain in
  od_from_pairs ((fun p : Qc * nat => (p.2, p.1)) <$> impact).

(** Lines 237-249: rewind when the problem changed, refresh the cached
    sample and ranking. *)
Definition prepare (self : t) (state : State) (sample : Sample) : t :=
  let bqm := problem state in
  let bqm_changed := bqm_differs bqm (_rolling_bqm self) in
  let sample_changed := sample_differs sample (_prev_sample self) in
  let self := if bqm_changed then _rewind_rolling self state else self in
  let self :=
    if sample_changed
    then set_cache self (_variable_priority self) (Some sample)
    else self in
  if bqm_changed || sample_changed
     || bool_decide (_variable_priority self = [])
  then set_cache self (ranking bqm sample (min_gain self)) (_prev_sample self)
  else self.

(** The local [size], clamped at line 235, is not read again. *)
Definition next (self : t) (state : State)
    : t * list log_record * result State :=
  let bqm := problem state in
  match best_sample bqm (samples state) with
  | Raise e => (self, [], Raise e)
  | Ok sample =>
      let log :=
        if bool_decide (len bqm < self_size self) then [LogAdapting] else [] in
      let self := prepare self state sample in
      if rolling self && history_reached self bqm then
        let log := log ++ [LogRollingReset (size (_unrolled_vars self))] in
        let self := _rewind_rolling self state in
        if negb (silent_rewind self)
        then (self, log, Raise EndOfStream)
        else select self state sample log
      else select self state sample log
  end.

(** One call of [next] as seen from outside. *)
Record call := {
  before : t;
  after : t;
  log : list log_record;
  outcome : result State
}.

(** Successive calls of [next], one per state. *)
Fixpoint run (self : t) (states : list State) : list call :=
  match states with
  | [] => []
  | state :: rest =>
      let r := next self state in
      {| before := self; after := r.1.1; log := r.1.2; outcome := r.2 |}
        :: run r.1.1 rest
  end.
End next.

End EnergyImpactDecomposer.

(** ** RandomSubproblemDecomposer *)

Module RandomSubproblemDecomposer.

Record t := { self_size : nat }.

Definition __init__ (sz : nat) : t := {| self_size := sz |}.

Section next.
Context `{HybridUtils}.

(** [rnd] is the state of the random generator. *)
Definition next (self : t) (rnd : nat) (state : State) : result State :=
  let bqm := problem state in
  if bool_decide (len bqm < self_size self) then Raise ValueError
  else
    let vars := select_random_subgraph rnd bqm (self_size self) in
    sample ← best_sample bqm (samples state);
    subbqm ← bqm_induced_by bqm vars sample;
    Ok (updated_subproblem (converted state) subbqm).
End next.

End RandomSubproblemDecomposer.

(** ** TilingChimeraDecomposer *)

Module TilingChimeraDecomposer.

(** A tile: its position and its embedding. *)
Definition block := ((nat * nat) * Embedding)%type.

(** [self.blocks]: a list iterator, or [itertools.cycle] around one.
    [cycle] copies what the inner iterator yields and, once that is
    exhausted, walks the copy round and round. *)
Inductive block_iter :=
| ListIter (rest : list block)
| Cycle (inner : option (list block)) (saved : list block) (index : nat).

Definition cycle_saved (saved : list block) (index : nat)
    : block_iter * result block :=
  match saved !! index with
  | None => (Cycle None saved index, Raise StopIteration)
  | Some b =>
      let index' := if bool_decide (S index < length saved) then S index else 0 in
      (Cycle None saved index', Ok b)
  end.

(** [next(self.blocks)] *)
Definition iter_next (it : block_iter) : block_iter * result block :=
  match it with
  | ListIter [] => (ListIter [], Raise StopIteration)
  | ListIter (b :: rest) => (ListIter rest, Ok b)
  | Cycle (Some (b :: rest)) saved index =>
      (Cycle (Some rest) (saved ++ [b]) index, Ok b)
  | Cycle _ saved index => cycle_saved saved index
  end.

Record t := {
  self_size : nat * nat * nat;
  loop : bool;
  blocks : option block_iter
}.

Definition __init__ (sz : nat * nat * nat) (loop : bool) : t :=
  {| self_size := sz; loop := loop; blocks := None |}.

Definition set_blocks (self : t) (it : block_iter) : t :=
  {| self_size := self_size self; loop := loop self; blocks := Some it |}.

Section next.
Context `{HybridUtils}.

(** [chimera_tiles(state.problem, *self.size).items()] *)
Definition tiles (self : t) (state : State) : list block :=
  od_from_pairs
    (chimera_tiles (problem state) (self_size self).1.1
       (self_size self).1.2 (self_size self).2).

Definition init (self : t) (state : State) : t :=
  let items := tiles self state in
  set_blocks self
    (if loop self then Cycle (Some items) [] 0 else ListIter items).

(** What [next] does with the tile it has drawn (lines 350-353). *)
Definition deliver (state : State) (b : block) : result State :=
  let bqm := problem state in
  let embedding := b.2 in
  let vars := od_keys embedding in
  sample ← best_sample bqm (samples state);
  subbqm ← bqm_induced_by bqm vars sample;
  Ok (updated_subproblem_embedding (converted state) subbqm embedding).

Definition next (self : t) (state : State) : t * result State :=
  match blocks self with
  | None => (self, Raise TypeError)
  | Some it =>
      let r := iter_next it in
      (set_blocks self r.1, b ← r.2; deliver state b)
  end.

(** Successive calls of [next], one per state. *)
Fixpoint run (self : t) (states : list State) : t * list (result State) :=
  match states with
  | [] => (self, [])
  | state :: rest =>
      let r := next self state in
      let rs := run r.1 rest in
      (rs.1, r.2 :: rs.2)
  end.
End next.

End TilingChimeraDecomposer.

(** ** RandomConstraintDecomposer *)

(** What the code hands to [set.add]: a label, or a list of labels. *)
Inductive pyobj :=
| PyLabel (v : nat)
| PyList (l : list nat).

(** [s.add(x)]: a list is not hashable. *)
Definition set_add (s : gset nat) (x : pyobj) : result (gset nat) :=
  match x with
  | PyLabel v => Ok ({[v]} ∪ s)
  | PyList _ => Raise TypeError
  end.

Module RandomConstraintDecomposer.

Record t := {
  self_size : nat;
  constraints : list (gset nat);
  constraint_graph : option Graph
}.

(** [constraints] is a list by its type: the [isinstance] test of line 379
    cannot fail. *)
Definition __init__ (sz : nat) (constraints : list (gset nat)) : result t :=
  if existsb (fun const : gset nat => bool_decide (sz < size const)) constraints
  then Raise ValueError
  else Ok {| self_size := sz; constraints := constraints;
             constraint_graph := None |}.

(** [any(v in const for v in other)] *)
Definition shares (const other : gset nat) : bool :=
  existsb (fun v => bool_decide (v ∈ const)) (elements other).

(** The inner loop of [init]: [for i in range(ci+1, len(constraints))]. *)
Definition link_row (constraints : list (gset nat)) (ci : nat)
    (const : gset nat) (CG : Graph) : Graph :=
  foldl (fun CG i =>
           match constraints !! i with
           | Some other => if shares const other then add_edge i ci CG else CG
           | None => CG
           end)
        CG (seq (S ci) (length constraints - S ci)).

(** The outer loop: [for ci, const in enumerate(constraints)]. *)
Definition build_graph (constraints : list (gset nat)) : Graph :=
  foldl (fun CG p => link_row constraints p.1 p.2 CG) []
        (imap (fun ci const => (ci, const)) constraints).

Definition init (self : t) (state : State) : t * result unit :=
  if bool_decide (len (problem state) < self_size self)
  then (self, Raise ValueError)
  else
    ({| self_size := self_size self; constraints := constraints self;
        constraint_graph := Some (build_graph (constraints self)) |},
     Ok tt).

(** The [for _, ci in nx.bfs_edges(CG, n)] loop of [next]. *)
Fixpoint accumulate (constraints : list (gset nat)) (sz : nat)
    (vars : gset nat) (edges : list (nat * nat)) : result (gset nat) :=
  match edges with
  | [] => Ok vars
  | (_, ci) :: rest =>
      match constraints !! ci with
      | None => Raise IndexError
      | Some const =>
          let proposed := filter (fun v => v ∉ vars) (elements const) in
          vars ← (if bool_decide (length proposed + size vars <= sz)
                  then set_add vars (PyList proposed)
                  else Ok vars);
          if bool_decide (size vars = sz) then Ok vars
          else accumulate constraints sz vars rest
      end
  end.

(** Lines 400-422: the variables [next] selects; [rnd] is the draw of
    [random.choice]. *)
Definition choose (self : t) (rnd : nat) : result (gset nat) :=
  match constraint_graph self with
  | None => Raise AttributeError
  | Some CG =>
      n ← random_choice rnd (seq 0 (length CG));
      match constraints self !! n with
      | None => Raise IndexError
      | Some seed =>
          if bool_decide (self_size self < size seed)
          then Raise NotImplementedError
          else
            edges ← bfs_edges CG n;
            accumulate (constraints self) (self_size self) seed edges
      end
  end.

Section next.
Context `{HybridUtils}.

Definition next (self : t) (rnd : nat) (state : State) : result State :=
  let bqm := problem state in
  vars ← choose self rnd;
  sample ← best_sample bqm (samples state);
  subbqm ← bqm_induced_by bqm (elements vars) sample;
  Ok (updated_subproblem (converted state) subbqm).
End next.

End RandomConstraintDecomposer.

(** ** An instance of the helpers *)

Module SpecUtils.

Definition value (sample : Sample) (v : nat) : Qc :=
  Qc_of_Z (default 0%Z (sample !! v)).

Definition sum_Qc (l : list Qc) : Qc := foldr Qcplus 0%Qc l.

(** [bqm.energy(sample)] *)
Definition energy (bqm : BQM) (sample : Sample) : Qc :=
  (offset bqm
   + sum_Qc ((fun p : nat * Qc => p.2 * value sample p.1) <$> linear bqm)
   + sum_Qc ((fun e : nat * nat * Qc =>
                e.2 * value sample e.1.1 * value sample e.1.2)
               <$> quadratic bqm))%Qc.

Definition flip (vt : Vartype) (sample : Sample) (v : nat) : Sample :=
  let x := default 0%Z (sample !! v) in
  <[v := match vt with SPIN => (- x)%Z | BINARY => (1 - x)%Z end]> sample.

Definition gain (bqm : BQM) (sample : Sample) (v : nat) : Qc :=
  (energy bqm sample - energy bqm (flip (vartype bqm) sample v))%Qc.

(** Stable insertion by descending gain. *)
Fixpoint insert_desc (x : Qc * nat) (l : list (Qc * nat)) : list (Qc * nat) :=
  match l with
  | [] => [x]
  | y :: l' =>
      if bool_decide (x.1 < y.1)%Qc then y :: insert_desc x l' else x :: l
  end.

(** Modelled from the spec: [hybrid.utils.flip_energy_gains] is not among
    the sources.  Section 4.1: the gain of a variable is the energy
    reduction achieved by flipping it alone; variables below the
    threshold are left out; the order is descending by gain, ties in the
    order in which the problem's variables are iterated. *)
Definition flip_energy_gains (bqm : BQM) (sample : Sample)
    (min_gain : option Qc) : list (Qc * nat) :=
  let scored := (fun v => (gain bqm sample v, v)) <$> variables bqm in
  let kept :=
    match min_gain with
    | None => scored
    | Some g => filter (fun p : Qc * nat => (g <= p.1)%Qc) scored
    end in
  foldr insert_desc [] kept.

Definition induced_bias (bqm : BQM) (selected : list nat) (sample : Sample)
    (v : nat) (bias : Qc) : Qc :=
  (bias
   + sum_Qc ((fun e : nat * nat * Qc =>
                if bool_decide (e.1.1 = v ∧ e.1.2 ∉ selected)
                then e.2 * value sample e.1.2
                else if bool_decide (e.1.2 = v ∧ e.1.1 ∉ selected)
                then e.2 * value sample e.1.1
                else 0)
               <$> quadratic bqm))%Qc.

(** Modelled from the spec: [hybrid.utils.bqm_induced_by] is not among the
    sources.  Section 4.2: the variables of the result are the selection,
    interactions inside the selection are copied, every selected bias
    gains the fixed value of each excluded neighbour times the
    interaction weight; an empty selection and a variable that the
    problem does not have are errors. *)
Definition bqm_induced_by (bqm : BQM) (vars : list nat) (sample : Sample)
    : result BQM :=
  let selected := remove_dups vars in
  if bool_decide (selected = []) then Raise ValueError
  else if bool_decide (Forall (fun v => v ∈ variables bqm) selected) then
    Ok {| linear :=
            (fun v => (v, induced_bias bqm selected sample v
                            (default 0%Qc (od_get (linear bqm) v))))
              <$> selected;
          quadratic :=
            filter (fun e : nat * nat * Qc =>
                      e.1.1 ∈ selected ∧ e.1.2 ∈ selected) (quadratic bqm);
          offset := offset bqm;
          vartype := vartype bqm |}
  else Raise KeyError.

(** Modelled from the spec: [hybrid.utils.select_random_subgraph] is not
    among the sources.  Section 4.5: [size] variables of the problem, no
    structural constraint; the draw [rnd] fixes where the selection
    starts. *)
Definition select_random_subgraph (rnd : nat) (bqm : BQM) (sz : nat)
    : list nat :=
  take sz (rotate rnd (variables bqm)).

Fixpoint chunks (fuel width : nat) (l : list nat) : list (list nat) :=
  match fuel, l with
  | S fuel', _ :: _ => take width l :: chunks fuel' width (drop width l)
  | _, _ => []
  end.

(** Modelled from the spec: [hybrid.utils.chimera_tiles] is not among the
    sources.  Section 4.6: the problem is cut into a sequence of tiles of
    one shape, each an embedding for its own variables.  Here the
    variables are taken in the order of the model, [2*m*n*t] to a tile
    (the node count of an [m] by [n] lattice with shores of [t]). *)
Definition chimera_tiles (bqm : BQM) (m n t : nat)
    : list ((nat * nat) * Embedding) :=
  let width := 2 * m * n * t in
  if bool_decide (width = 0) then []
  else
    imap (fun k tile => ((0, k), imap (fun i v => (v, [i])) tile))
         (chunks (len bqm) width (variables bqm)).

Definition utils : HybridUtils :=
  Build_HybridUtils flip_energy_gains bqm_induced_by
    select_random_subgraph chimera_tiles.

End SpecUtils.


(** ** Sample inputs *)

Module Inputs.

(** A model over the given labels with unit biases, every pair coupled. *)
Definition pairs_of (vs : list nat) : list (nat * nat * Qc) :=
  flat_map (fun u => (fun v => (u, v, 1%Qc))
                       <$> filter (fun v => u < v) vs) vs.

Definition complete (vs : list nat) : BQM :=
  {| linear := (fun v => (v, 1%Qc)) <$> vs;
     quadratic := pairs_of vs;
     offset := 0%Qc;
     vartype := BINARY |}.

(** A model over the given labels with unit biases, each label coupled
    to the next one. *)
Definition path (vs : list nat) : BQM :=
  {| linear := (fun v => (v, 1%Qc)) <$> vs;
     quadratic := (fun p : nat * nat => (p.1, p.2, 1%Qc)) <$> zip vs (tail vs);
     offset := 0%Qc;
     vartype := BINARY |}.

Definition zeros (vs : list nat) : Sample :=
  list_to_map ((fun v => (v, 0%Z)) <$> vs).

(** [State.from_sample(sample, bqm)] for the all-zero sample. *)
Definition state_of (vs : list nat) : State :=
  {| problem := complete vs;
     samples := {| ss_records := [(zeros vs, 0%Qc)]; ss_vartype := BINARY |};
     subproblem := None;
     embedding := None |}.


Definition half : Qc := Q2Qc (1 # 2).

(** The float [0.1], the default [rolling_history]: the float nearest to
    one tenth. *)
Definition tenth : Qc := fl (Q2Qc (1 # 10)).

(** A decomposer as [__init__] leaves it. *)
Definition fresh (sz : nat) (rolling : bool) (rolling_history : Qc)
    (silent_rewind : bool) (tr : EnergyImpactDecomposer.Traverser) : EnergyImpactDecomposer.t :=
  {| EnergyImpactDecomposer.self_size := sz;
     EnergyImpactDecomposer.min_gain := None;
     EnergyImpactDecomposer.rolling := rolling;
     EnergyImpactDecomposer.rolling_history := rolling_history;
     EnergyImpactDecomposer.silent_rewind := silent_rewind;
     EnergyImpactDecomposer.traverse := tr;
     EnergyImpactDecomposer._unrolled_vars := ∅;
     EnergyImpactDecomposer._rolling_bqm := None;
     EnergyImpactDecomposer._rolling_sample := None;
     EnergyImpactDecomposer._variable_priority := [];
     EnergyImpactDecomposer._prev_sample := None |}.

(** [RandomConstraintDecomposer(size, constraints)] after [init(state)]. *)
Definition constrained (sz : nat) (constraints : list (gset nat))
    (state : State) : RandomConstraintDecomposer.t :=
  (RandomConstraintDecomposer.init
     {| RandomConstraintDecomposer.self_size := sz;
        RandomConstraintDecomposer.constraints := constraints;
        RandomConstraintDecomposer.constraint_graph := None |} state).1.

End Inputs.


(** ** Predicates used in the statements *)

(** The configuration of a decomposer: what [__init__] stores and no
    method changes. *)
Definition same_config (a b : EnergyImpactDecomposer.t) : Prop :=
  EnergyImpactDecomposer.self_size a = EnergyImpactDecomposer.self_size b
  ∧ EnergyImpactDecomposer.min_gain a = EnergyImpactDecomposer.min_gain b
  ∧ EnergyImpactDecomposer.rolling a = EnergyImpactDecomposer.rolling b
  ∧ EnergyImpactDecomposer.rolling_history a = EnergyImpactDecomposer.rolling_history b
  ∧ EnergyImpactDecomposer.silent_rewind a = EnergyImpactDecomposer.silent_rewind b
  ∧ EnergyImpactDecomposer.traverse a = EnergyImpactDecomposer.traverse b.

(** Whether a call logged a rolling reset. *)
Definition rewinds (c : EnergyImpactDecomposer.call) : bool :=
  existsb (fun r => match r with LogRollingReset _ => true | _ => false end)
    (EnergyImpactDecomposer.log c).

(** The bound of the rolling history, the float
    [rolling_history * len(bqm)]. *)
Definition history_bound (self : EnergyImpactDecomposer.t) (bqm : BQM) : Qc :=
  float_mul (EnergyImpactDecomposer.rolling_history self) (len bqm).

(** What [next] keeps true from call to call on one problem. *)
Definition settled (self : EnergyImpactDecomposer.t) (bqm : BQM) : Prop :=
  bqm_differs bqm (EnergyImpactDecomposer._rolling_bqm self) = false
  ∨ EnergyImpactDecomposer._unrolled_vars self = ∅.

(** What [_iterative_graph_search] needs of a search method: at most the
    requested number of nodes, each the source or an adjacency entry. *)
Definition bounded_method (method : EnergyImpactDecomposer.Method) : Prop :=
  ∀ graph source sz priority nodes,
    method graph source sz priority = Ok nodes ->
    length nodes <= sz ∧ ∀ v, v ∈ nodes -> v = source ∨ v ∈ targets graph.

(** Every adjacency entry is a node of the graph. *)
Definition closed (g : Graph) : Prop := ∀ v, v ∈ targets g -> v ∈ g.*1.

(** A search method never runs out of steps. *)
Definition steps_suffice (method : EnergyImpactDecomposer.Method) : Prop :=
  ∀ graph source sz priority, method graph source sz priority ≠ Raise OutOfFuel.

(** A search method returns when the source is a node of a closed graph
    whose nodes all have a priority. *)
Definition returns_on_ranked (method : EnergyImpactDecomposer.Method) : Prop :=
  ∀ graph source sz priority,
    closed graph -> source ∈ graph.*1 ->
    (∀ v, v ∈ graph.*1 -> is_Some (priority v)) ->
    is_ok (method graph source sz priority) = true.

(** Two groups, at different places of the list, with a common variable. *)
Definition linked (cs : list (gset nat)) (i j : nat) : Prop :=
  i ≠ j ∧ ∃ ci cj v, cs !! i = Some ci ∧ cs !! j = Some cj ∧ v ∈ ci ∧ v ∈ cj.

(** The outcome of a call of [TilingChimeraDecomposer.next] that drew [ob]
    from its iterator. *)
Definition drawn `{HybridUtils} (state : State) (ob : option TilingChimeraDecomposer.block)
    : result State :=
  match ob with
  | Some b => TilingChimeraDecomposer.deliver state b
  | None => Raise StopIteration
  end.

(** A search method started with room for one node returns its source. *)
Definition seeded_method (method : EnergyImpactDecomposer.Method) : Prop :=
  ∀ graph source sz priority nodes,
    1 <= sz -> method graph source sz priority = Ok nodes -> source ∈ nodes.

(** [v] is in [G[u]]. *)
Definition adjacent (g : Graph) (u v : nat) : Prop :=
  ∃ ns, od_get g u = Some ns ∧ v ∈ ns.

(** The heap entries that the loop over the neighbours of a node pushes,
    counters from [c] on. *)
Fixpoint entries_of (priority : nat -> option Qc) (c : nat) (nbrs : list nat)
    : list EnergyImpactDecomposer.entry :=
  match nbrs with
  | [] => []
  | u :: rest =>
      ((- default 0 (priority u))%Qc, c, u) :: entries_of priority (S c) rest
  end.

(** The order of the heap: tuple order on priority and counter. *)
Definition before_entry (a b : EnergyImpactDecomposer.entry) : Prop :=
  (a.1.1 < b.1.1)%Qc ∨ (a.1.1 = b.1.1 ∧ a.1.2 < b.1.2).

(** * Properties *)

Set Warnings "-clear-no-such-hyp".

(** ** Floats *)

Lemma pow2_Q e : (pow2 e : Q) == 2 ^ e.
Proof. unfold pow2. simpl. apply Qred_correct. Qed.

Lemma pow2_pos e : (0 < pow2 e)%Qc.
Proof.
  unfold Qclt. rewrite pow2_Q. simpl. by apply Qpower_0_lt.
Qed.

Lemma pow2_add a b : (pow2 (a + b) = pow2 a * pow2 b)%Qc.
Proof.
  apply Qc_is_canon. simpl. rewrite !Qred_correct. by apply Qpower_plus.
Qed.

Lemma pow2_nonneg e : (0 <= e)%Z -> pow2 e = Qc_of_Z (2 ^ e).
Proof.
  intros He. apply Qc_is_canon. simpl. rewrite !Qred_correct.
  symmetry. by apply Zpower_Qpower.
Qed.

Lemma Qc_num_den (x : Qc) :
  (x * Qc_of_Z (Zpos (Qden x)) = Qc_of_Z (Qnum x))%Qc.
Proof.
  apply Qc_is_canon. simpl. rewrite !Qred_correct.
  destruct x as [[p q] Hc]. simpl. unfold Qeq, Qmult. simpl. lia.
Qed.

Lemma ilog2_le x : (0 < x)%Qc -> (pow2 (ilog2 x) <= x)%Qc.
Proof.
  intros Hx. unfold ilog2. case_bool_decide as Hd; [done|]. clear Hd.
  set (lp := Z.log2 (Qnum x)). set (lq := Z.log2 (Zpos (Qden x))).
  assert (0 < Qnum x)%Z as Hp.
  { unfold Qclt, Qlt in Hx. simpl in Hx. lia. }
  assert (0 <= lp)%Z as Hlp by apply Z.log2_nonneg.
  assert (0 <= lq)%Z as Hlq by apply Z.log2_nonneg.
  pose proof (Z.log2_spec _ Hp) as [Hp1 _]. fold lp in Hp1.
  pose proof (Z.log2_spec (Zpos (Qden x)) ltac:(lia)) as [_ Hq2]. fold lq in Hq2.
  apply (Qcmult_lt_0_le_reg_r _ _ (pow2 (lq + 1))); [apply pow2_pos|].
  rewrite <- pow2_add. replace (lp - lq - 1 + (lq + 1))%Z with lp by lia.
  rewrite pow2_nonneg by done.
  etrans; [apply (proj1 (Z2Qc_inj_le _ _) Hp1)|]. rewrite <- Qc_num_den.
  apply Qcmult_le_mono_pos_l; [done|]. rewrite pow2_nonneg by lia.
  apply (proj1 (Z2Qc_inj_le _ _)). unfold Z.succ in Hq2. lia.
Qed.



(** Zero and the sign survive the rounding. *)
Lemma fl_0 : fl 0 = 0%Qc.
Proof. reflexivity. Qed.


Lemma float_mul_0 n : float_mul 0 n = 0%Qc.
Proof. unfold float_mul. by rewrite Qcmult_0_l. Qed.


Lemma pow2_le a b : (a <= b)%Z -> (pow2 a <= pow2 b)%Qc.
Proof.
  intros Hab. replace b with (a + (b - a))%Z by lia. rewrite pow2_add.
  rewrite <- (Qcmult_1_r (pow2 a)) at 1.
  apply Qcmult_le_mono_pos_l; [apply pow2_pos|].
  rewrite pow2_nonneg by lia. rewrite <- Z2Qc_inj_1.
  apply (proj1 (Z2Qc_inj_le _ _)).
  pose proof (Z.pow_pos_nonneg 2 (b - a)). lia.
Qed.

Lemma round_half_even_Z z : round_half_even (Qc_of_Z z) = z.
Proof.
  unfold round_half_even.
  assert (Qfloor (Qc_of_Z z) = z) as ->.
  { apply Qfloor_Z. }
  replace (Qc_of_Z z - Qc_of_Z z)%Qc with 0%Qc by ring.
  by rewrite bool_decide_eq_true_2.
Qed.

(** An integer of at most 53 bits is a float: a length converts to the
    float of the same value. *)
Lemma fl_Z z : (0 <= z < 2 ^ 53)%Z -> fl (Qc_of_Z z) = Qc_of_Z z.
Proof.
  intros [Hz0 Hz].
  destruct (decide (z = 0%Z)) as [->|Hnz]; [by rewrite Z2Qc_inj_0|].
  unfold fl.
  assert (0 < Qc_of_Z z)%Qc as Hpos.
  { rewrite <- Z2Qc_inj_0. apply (proj1 (Z2Qc_inj_lt _ _)). lia. }
  rewrite bool_decide_eq_false_2.
  2:{ intros Heq. rewrite Heq in Hpos. by apply (Qcle_not_lt _ _ (Qcle_refl 0)) in Hpos. }
  rewrite bool_decide_eq_false_2 by (by apply Qcle_not_lt, Qclt_le_weak).
  unfold round_positive. set (L := ilog2 (Qc_of_Z z)).
  assert (L <= 52)%Z as HL.
  { destruct (decide (L <= 52)%Z) as [|Hgt]; [done|]. exfalso.
    apply (Qcle_not_lt (pow2 53) (Qc_of_Z z)).
    - etrans; [apply (pow2_le 53 L); lia|]. by apply ilog2_le.
    - rewrite pow2_nonneg by lia. by apply (proj1 (Z2Qc_inj_lt _ _)). }
  rewrite (pow2_nonneg (- (L - 52))) by lia.
  rewrite <- Z2Qc_inj_mul, round_half_even_Z, Z2Qc_inj_mul.
  rewrite <- (pow2_nonneg (- (L - 52))) by lia.
  rewrite <- Qcmult_assoc, <- pow2_add.
  replace (- (L - 52) + (L - 52))%Z with 0%Z by lia.
  change (pow2 0) with 1%Qc. ring.
Qed.

(** On a length below [2^53] the float product is the float nearest to
    the exact product. *)
Lemma float_mul_exact_length x n :
  (Z.of_nat n < 2 ^ 53)%Z -> float_mul x n = fl (x * Qc_of_Z (Z.of_nat n)).
Proof. intros Hn. unfold float_mul. rewrite fl_Z; [done|lia]. Qed.

(** ** Samples converted in place *)

Lemma convert_value_same vt x : convert_value vt vt x = x.
Proof. by destruct vt. Qed.

(** Converting twice is converting once. *)
Lemma change_vartype_idem vt ss :
  change_vartype vt (change_vartype vt ss) = change_vartype vt ss.
Proof.
  unfold change_vartype. cbn [ss_records ss_vartype]. f_equal.
  rewrite <- list_fmap_compose. apply list_fmap_ext. intros _ [sample en] _.
  cbn [compose fst snd]. f_equal.
  rewrite <- (map_fmap_id (convert_value (ss_vartype ss) vt <$> sample)) at 2.
  apply map_fmap_ext. intros. apply convert_value_same.
Qed.

Lemma converted_idem state : converted (converted state) = converted state.
Proof.
  unfold converted. cbn [problem samples subproblem embedding].
  by rewrite change_vartype_idem.
Qed.

(** A call on the state with its samples converted reads the sample that
    the call on the state as it was read. *)
Lemma best_sample_converted state :
  best_sample (problem (converted state)) (samples (converted state))
  = best_sample (problem state) (samples state).
Proof.
  unfold best_sample. cbn [converted problem samples].
  by rewrite change_vartype_idem.
Qed.

Lemma best_sample_change bqm ss :
  best_sample bqm (change_vartype (vartype bqm) ss) = best_sample bqm ss.
Proof. unfold best_sample. by rewrite change_vartype_idem. Qed.

(** ** Sets, dictionaries, rationals *)

Lemma size_union_le (X Y : gset nat) : size (X ∪ Y) <= size X + size Y.
Proof.
  rewrite size_union_alt.
  assert (size (Y ∖ X) <= size Y) by (apply subseteq_size; set_solver). lia.
Qed.

Lemma size_list_to_set_le (l : list nat) : size (list_to_set l : gset nat) <= length l.
Proof.
  induction l as [|x l IH].
  - by rewrite list_to_set_nil, size_empty.
  - rewrite list_to_set_cons, length_cons.
    etrans; [apply size_union_le|]. rewrite size_singleton. lia.
Qed.

Lemma size_difference_step (U s : gset nat) c :
  c ∈ U -> c ∉ s -> S (size (U ∖ ({[c]} ∪ s))) = size (U ∖ s).
Proof.
  intros HU Hs.
  assert (U ∖ s = ({[c]} : gset nat) ∪ (U ∖ ({[c]} ∪ s))) as Heq.
  { apply set_eq. intros x. rewrite elem_of_union, !elem_of_difference,
      elem_of_union, elem_of_singleton.
    destruct (decide (x = c)) as [->|]; naive_solver. }
  rewrite Heq.
  rewrite (size_union ({[c]} : gset nat) (U ∖ ({[c]} ∪ s))) by set_solver.
  by rewrite size_singleton.
Qed.

Lemma below_ceiling (k : Z) (q : Qc) : ¬ (q <= Qc_of_Z k)%Qc -> (k < Qceiling q)%Z.
Proof.
  intros Hn. apply Qcnot_le_lt in Hn.
  rewrite Zlt_Qlt. eapply Qlt_le_trans; [exact Hn|]. apply Qle_ceiling.
Qed.

Section odict_facts.
Context {K : Type} `{EqDecision K} {V : Type}.

Lemma od_set_keys (k : K) (v : V) (d : list (K * V)) :
  (od_set k v d).*1 = if decide (k ∈ d.*1) then d.*1 else d.*1 ++ [k].
Proof.
  induction d as [|[k' v'] d IH]; [done|].
  cbn [od_set]. destruct (decide (k' = k)) as [->|Hne]; rewrite !fmap_cons; cbn [fst].
  - rewrite decide_True; [done|left].
  - rewrite IH. destruct (decide (k ∈ d.*1)).
    + rewrite decide_True; [done|by right].
    + rewrite decide_False; [done|]. set_solver.
Qed.

Lemma od_set_NoDup (k : K) (v : V) (d : list (K * V)) :
  NoDup d.*1 -> NoDup (od_set k v d).*1.
Proof.
  intros Hd. rewrite od_set_keys. destruct (decide _); [done|].
  apply NoDup_app. split; [done|]. split; [set_solver|]. apply NoDup_singleton.
Qed.

Lemma od_from_pairs_NoDup (l : list (K * V)) : NoDup (od_from_pairs l).*1.
Proof.
  unfold od_from_pairs.
  assert (∀ d : list (K * V), NoDup d.*1 ->
            NoDup (foldl (fun d p => od_set p.1 p.2 d) d l).*1) as Hgen.
  { induction l as [|p l IH]; intros d Hd; simpl; [done|].
    apply IH. by apply od_set_NoDup. }
  apply Hgen. constructor.
Qed.

Lemma od_get_None (d : list (K * V)) k : od_get d k = None ↔ k ∉ d.*1.
Proof.
  induction d as [|[k' v] d IH]; simpl.
  - split; [set_solver|done].
  - destruct (decide (k' = k)) as [->|Hne]; [set_solver|].
    rewrite IH. set_solver.
Qed.

Lemma od_get_Some_elem (d : list (K * V)) k v : od_get d k = Some v -> (k, v) ∈ d.
Proof.
  induction d as [|[k' v'] d IH]; simpl; [done|].
  destruct (decide (k' = k)) as [->|Hne].
  - intros [= ->]. left.
  - intros Hg. right. auto.
Qed.

Lemma od_get_is_Some (d : list (K * V)) k : k ∈ od_keys d -> is_Some (od_get d k).
Proof.
  intros Hk. destruct (od_get d k) eqn:Hg; [done|].
  by apply od_get_None in Hg.
Qed.
End odict_facts.

(** ** Adjacency *)

Lemma elem_of_targets (g : Graph) v :
  v ∈ targets g ↔ ∃ p, p ∈ g ∧ v ∈ p.2.
Proof.
  unfold targets. rewrite elem_of_list_to_set, list_elem_of_join. split.
  - intros (ns & Hv & Hns). apply list_elem_of_fmap in Hns as (p & -> & Hp). eauto.
  - intros (p & Hp & Hv). exists p.2. split; [done|]. apply list_elem_of_fmap. eauto.
Qed.

Lemma adjacency_targets (g : Graph) u ns v :
  od_get g u = Some ns -> v ∈ ns -> v ∈ targets g.
Proof.
  intros Hg Hv. apply elem_of_targets. exists (u, ns).
  split; [by apply od_get_Some_elem|done].
Qed.

Lemma elem_of_remove_nodes (g : Graph) (s : gset nat) p :
  p ∈ remove_nodes_from g s ->
  (p.1 ∉ s) ∧ (∃ ns, (p.1, ns) ∈ g ∧ p.2 = filter (fun v => v ∉ s) ns).
Proof.
  unfold remove_nodes_from. intros Hp.
  apply list_elem_of_fmap in Hp as ([u ns] & -> & Hin).
  apply list_elem_of_filter in Hin as [Hu Hin]. simpl in *. eauto.
Qed.

Lemma targets_remove_nodes (g : Graph) (s : gset nat) v :
  v ∈ targets (remove_nodes_from g s) -> v ∈ targets g ∧ v ∉ s.
Proof.
  rewrite !elem_of_targets. intros (p & Hp & Hv).
  apply elem_of_remove_nodes in Hp as (_ & ns & Hin & Heq).
  rewrite Heq in Hv. apply list_elem_of_filter in Hv as [Hs Hv].
  split; [|done]. by exists (p.1, ns).
Qed.

(** ** Breadth-first search reaches adjacency entries only *)

Lemma bfs_children_elem cs seen c :
  c ∈ (bfs_children cs seen).1 -> c ∈ cs.
Proof.
  revert seen. induction cs as [|x cs IH]; intros seen; simpl; [done|].
  destruct (decide (x ∈ seen)); simpl.
  - intros Hc. right. eauto.
  - intros Hc. apply elem_of_cons in Hc as [->|Hc]; [left|right; eauto].
Qed.

Lemma bfs_loop_targets fuel g queue seen es e :
  bfs_loop fuel g queue seen = Ok es -> e ∈ es -> e.2 ∈ targets g.
Proof.
  revert queue seen es. induction fuel as [|fuel IH]; intros queue seen es;
    destruct queue as [|parent rest]; simpl.
  1, 3: intros [= <-] He; by apply elem_of_nil in He.
  1: done.
  destruct (bfs_loop fuel g _ _) as [es'|] eqn:Hloop; simpl; [|done].
  intros [= <-] He. apply elem_of_app in He as [He|He]; [|by eapply IH].
  apply list_elem_of_fmap in He as (c & -> & Hc). simpl.
  apply bfs_children_elem in Hc.
  destruct (od_get g parent) as [ns|] eqn:Hg; simpl in Hc; [|set_solver].
  by eapply adjacency_targets.
Qed.

Section search.
Import EnergyImpactDecomposer.


Lemma _bfs_nodes_bounded : bounded_method _bfs_nodes.
Proof.
  intros graph source sz priority nodes. unfold _bfs_nodes.
  case_bool_decide as Hsz; [intros [= <-]; split; [simpl; lia|set_solver]|].
  destruct sz as [|k]; [lia|]. replace (S k - 1) with k by lia.
  unfold islice. destruct k as [|k].
  { simpl. intros [= <-]. split; [simpl; lia|]. set_solver. }
  unfold bfs_edges. generalize (search_fuel graph). intros fuel.
  destruct (neighbors graph source); simpl; [|done].
  destruct (bfs_loop _ _ _ _) as [es|] eqn:Hloop; simpl; [|done].
  intros [= <-]. split.
  - rewrite length_cons, length_take. lia.
  - intros v Hv. apply elem_of_cons in Hv as [->|Hv]; [by left|right].
    apply elem_of_take in Hv as (i & Hv & _).
    apply list_elem_of_lookup_2 in Hv. apply list_elem_of_fmap in Hv as (e & -> & He).
    exact (bfs_loop_targets _ _ _ _ _ _ Hloop He).
Qed.

(** *** The priority queue *)

Lemma remove_entry_elem e q x : x ∈ remove_entry e q -> x ∈ q.
Proof.
  induction q as [|y q IH]; simpl; [done|].
  destruct (decide (y = e)); [by right|].
  intros Hx. apply elem_of_cons in Hx as [->|Hx]; [left|right; auto].
Qed.

Lemma remove_entry_length e q : e ∈ q -> length q = S (length (remove_entry e q)).
Proof.
  induction q as [|y q IH]; simpl; [by intros ?%elem_of_nil|].
  destruct (decide (y = e)) as [->|Hne]; [done|].
  intros He. apply elem_of_cons in He as [->|He]; [done|]. simpl. by rewrite <- IH.
Qed.

Lemma least_entry_elem (e : entry) q :
  foldl (fun m x => if entry_lt x m then x else m) e q ∈ e :: q.
Proof.
  revert e. induction q as [|y q IH]; intros e; simpl; [left|].
  destruct (entry_lt y e).
  - right. apply IH.
  - specialize (IH e). apply elem_of_cons in IH as [->|IH]; [left|right; by right].
Qed.

Lemma heappop_Some queue e queue1 :
  heappop queue = Some (e, queue1) ->
  e ∈ queue ∧ (∀ x, x ∈ queue1 -> x ∈ queue) ∧ length queue = S (length queue1).
Proof.
  unfold heappop. destruct queue as [|e0 q]; [done|].
  pose proof (least_entry_elem e0 q) as Hm.
  set (m := foldl _ e0 q) in *. intros [= <- <-].
  split; [done|]. split.
  - intros x. exact (remove_entry_elem m (e0 :: q) x).
  - exact (remove_entry_length m (e0 :: q) Hm).
Qed.

Lemma pfs_for_queue priority nbrs queue counter enqueued st x :
  pfs_for priority nbrs queue counter enqueued = Ok st ->
  x ∈ st.1.1 -> x ∈ queue ∨ x.2 ∈ nbrs.
Proof.
  revert queue counter enqueued.
  induction nbrs as [|nb nbrs IH]; intros queue counter enqueued; simpl.
  - intros [= <-]. by left.
  - destruct (decide (nb ∈ enqueued)).
    + intros Hf Hx. destruct (IH _ _ _ Hf Hx); [by left|right; by right].
    + unfold push. destruct (priority nb) as [p|]; simpl; [|done].
      intros Hf Hx. destruct (IH _ _ _ Hf Hx) as [Hq|]; [|right; by right].
      apply elem_of_app in Hq as [|Hq]; [by left|].
      apply list_elem_of_singleton in Hq as ->. right. left.
Qed.

Lemma pfs_while_sound (P : nat -> Prop) fuel graph priority sz queue counter
    visited enqueued visited' :
  (∀ v, v ∈ targets graph -> P v) ->
  (∀ e, e ∈ queue -> P e.2) ->
  (∀ v, v ∈ visited -> P v) ->
  size visited <= sz ->
  pfs_while fuel graph priority sz queue counter visited enqueued = Ok visited' ->
  size visited' <= sz ∧ ∀ v, v ∈ visited' -> P v.
Proof.
  intros Hadj. revert queue counter visited enqueued.
  induction fuel as [|fuel IH]; intros queue counter visited enqueued Hq Hv Hsz; simpl;
    destruct (heappop queue) as [[e queue1]|] eqn:Hpop;
    try (intros [= <-]; by split).
  - case_bool_decide; [done|]. intros [= <-]. by split.
  - case_bool_decide as Hlt; [|intros [= <-]; by split].
    apply heappop_Some in Hpop as (He & Hsub & _).
    destruct (decide (e.2 ∈ visited)).
    { apply IH; auto. }
    unfold getitem. destruct (od_get graph e.2) as [nbrs|] eqn:Hg; simpl; [|done].
    destruct (pfs_for _ _ _ _ _) as [st|] eqn:Hfor; simpl; [|done].
    apply IH.
    + intros x Hx. destruct (pfs_for_queue _ _ _ _ _ _ _ Hfor Hx) as [Hx'|Hx']; [auto|].
      apply Hadj. by eapply adjacency_targets.
    + intros v Hin. apply elem_of_union in Hin as [Hin|Hin]; [|auto].
      apply elem_of_singleton in Hin as ->. auto.
    + etrans; [apply size_union_le|]. rewrite size_singleton. lia.
Qed.

Lemma _pfs_nodes_bounded : bounded_method _pfs_nodes.
Proof.
  intros graph source sz priority nodes. unfold _pfs_nodes.
  case_bool_decide as Hsz; [intros [= <-]; split; [simpl; lia|by intros v ?%elem_of_nil]|].
  generalize (search_fuel graph). intros fuel.
  unfold push. destruct (priority source) as [p|]; simpl; [|done].
  destruct (pfs_while _ _ _ _ _ _ _ _) as [visited|] eqn:Hw; simpl; [|done].
  intros [= <-].
  apply (pfs_while_sound (fun v => v = source ∨ v ∈ targets graph)) in Hw
    as [Hsize Hin].
  - split; [exact Hsize|].
    intros v Hv. apply Hin. by apply elem_of_elements.
  - by right.
  - intros e He. apply list_elem_of_singleton in He as ->. by left.
  - intros v Hv. by apply not_elem_of_empty in Hv.
  - rewrite size_empty. lia.
Qed.

(** *** The multi-start loop *)

Lemma search_loop_sound method ordered_priority visited sz graph vars order vars' :
  bounded_method method ->
  size vars <= sz -> vars ## visited -> targets graph ## visited ->
  search_loop method ordered_priority visited sz graph vars order = Ok vars' ->
  size vars' <= sz ∧ vars' ## visited.
Proof.
  intros Hm. revert graph vars.
  induction order as [|source order IH]; intros graph vars Hsz Hv Hg; simpl.
  - destruct (_ && _); intros [= <-]; by split.
  - destruct (bool_decide (size vars < sz)) eqn:Hlt; simpl; [|intros [= <-]; by split].
    destruct (bool_decide (length graph ≠ 0)); simpl; [|intros [= <-]; by split].
    apply bool_decide_eq_true_1 in Hlt.
    destruct (bool_decide (source ∈ visited)) eqn:Hsv; simpl; [by apply IH|].
    destruct (bool_decide (source ∈ vars)); simpl; [by apply IH|].
    apply bool_decide_eq_false_1 in Hsv.
    destruct (method graph source _ _) as [nodes|] eqn:Hnodes; simpl; [|done].
    apply Hm in Hnodes as [Hlen Hin].
    apply IH.
    + etrans; [apply size_union_le|].
      pose proof (size_list_to_set_le nodes). lia.
    + intros v Hvv Hvis. apply elem_of_union in Hvv as [Hvv|Hvv]; [|by apply (Hv v)].
      apply elem_of_list_to_set in Hvv. destruct (Hin v Hvv) as [->|Ht]; [done|].
      by apply (Hg v).
    + intros v Hvt Hvis. apply targets_remove_nodes in Hvt as [Hvt _]. by apply (Hg v).
Qed.

Lemma _iterative_graph_search_sound method bqm sample ordered_priority visited sz l :
  bounded_method method ->
  _iterative_graph_search method bqm sample ordered_priority visited sz = Ok l ->
  length l <= sz ∧ NoDup l ∧ ∀ v, v ∈ l -> v ∉ visited.
Proof.
  intros Hm. unfold _iterative_graph_search.
  destruct (search_loop _ _ _ _ _ _ _) as [vars|] eqn:Hs; simpl; [|done].
  intros [= <-]. apply search_loop_sound in Hs as [Hsize Hdisj]; [|done|..].
  - split; [exact Hsize|]. split; [apply NoDup_elements|].
    intros v Hv Hvis. apply elem_of_elements in Hv. by apply (Hdisj v).
  - rewrite size_empty. lia.
  - intros v Hv. by apply not_elem_of_empty in Hv.
  - intros v Hv Hvis. by apply targets_remove_nodes in Hv as [_ ?].
Qed.

(** *** The searches run to their end

    The measure: labels not yet enqueued, plus the length of the queue. *)


Lemma bfs_children_measure (U : gset nat) cs seen :
  (∀ c, c ∈ cs -> c ∈ U) ->
  size (U ∖ (bfs_children cs seen).2) + length (bfs_children cs seen).1
  <= size (U ∖ seen).
Proof.
  revert seen. induction cs as [|c cs IH]; intros seen HU; simpl; [lia|].
  assert (∀ c, c ∈ cs -> c ∈ U) as HU' by (intros; apply HU; by right).
  destruct (decide (c ∈ seen)) as [|Hc]; [by apply IH|]. simpl.
  specialize (IH ({[c]} ∪ seen) HU').
  rewrite <- (size_difference_step U seen c); [lia| |done]. apply HU. left.
Qed.

Lemma bfs_loop_total fuel g queue seen :
  size (targets g ∖ seen) + length queue <= fuel ->
  is_ok (bfs_loop fuel g queue seen) = true.
Proof.
  revert queue seen. induction fuel as [|fuel IH]; intros queue seen Hm;
    destruct queue as [|parent rest]; simpl in *; try done; [lia|].
  set (r := bfs_children _ seen).
  assert (is_ok (bfs_loop fuel g (rest ++ r.1) r.2) = true) as Hok.
  { apply IH. rewrite length_app.
    pose proof (bfs_children_measure (targets g)
                  (default [] (od_get g parent)) seen) as Hc.
    fold r in Hc.
    assert (size (targets g ∖ r.2) + length r.1 <= size (targets g ∖ seen)); [|lia].
    apply Hc. intros c Hin. destruct (od_get g parent) as [ns|] eqn:Hg; simpl in Hin.
    - by eapply adjacency_targets.
    - by apply elem_of_nil in Hin. }
  by destruct (bfs_loop fuel g _ _).
Qed.

Lemma bfs_edges_total g source :
  source ∈ g.*1 -> is_ok (bfs_edges g source) = true.
Proof.
  intros Hs. unfold bfs_edges, neighbors.
  destruct (od_get g source) eqn:Hg.
  - change (is_ok (bfs_loop (search_fuel g) g [source] {[source]}) = true).
    apply bfs_loop_total. unfold search_fuel. cbn [length].
    assert (size (targets g ∖ {[source]}) <= size (targets g)); [|lia].
    apply subseteq_size. set_solver.
  - by apply od_get_None in Hg.
Qed.

Lemma bfs_edges_raises g source e :
  bfs_edges g source = Raise e -> e = NetworkXError.
Proof.
  intros Hr. destruct (decide (source ∈ g.*1)) as [Hs|Hn].
  - apply bfs_edges_total in Hs. by rewrite Hr in Hs.
  - apply od_get_None in Hn. unfold bfs_edges, neighbors in Hr.
    rewrite Hn in Hr. by injection Hr as <-.
Qed.

Lemma pfs_for_measure (U : gset nat) priority nbrs queue counter enqueued st :
  (∀ v, v ∈ nbrs -> v ∈ U) ->
  pfs_for priority nbrs queue counter enqueued = Ok st ->
  size (U ∖ st.2) + length st.1.1 <= size (U ∖ enqueued) + length queue.
Proof.
  revert queue counter enqueued.
  induction nbrs as [|nb nbrs IH]; intros queue counter enqueued HU; simpl.
  - intros [= <-]. simpl. lia.
  - assert (∀ v, v ∈ nbrs -> v ∈ U) as HU' by (intros; apply HU; by right).
    destruct (decide (nb ∈ enqueued)) as [|Hnb]; [by apply IH|].
    unfold push. destruct (priority nb) as [p|]; simpl; [|done].
    intros Hf. apply IH in Hf; [|done].
    rewrite length_app in Hf. simpl in Hf.
    rewrite <- (size_difference_step U enqueued nb); [lia| |done]. apply HU. left.
Qed.

Lemma pfs_for_raises priority nbrs queue counter enqueued e :
  pfs_for priority nbrs queue counter enqueued = Raise e -> e = TypeError.
Proof.
  revert queue counter enqueued.
  induction nbrs as [|nb nbrs IH]; intros queue counter enqueued; simpl; [done|].
  destruct (decide (nb ∈ enqueued)); [apply IH|].
  unfold push. destruct (priority nb) as [p|]; simpl; [apply IH|by intros [= <-]].
Qed.

Lemma pfs_for_total priority nbrs queue counter enqueued :
  (∀ v, v ∈ nbrs -> is_Some (priority v)) ->
  is_ok (pfs_for priority nbrs queue counter enqueued) = true.
Proof.
  revert queue counter enqueued.
  induction nbrs as [|nb nbrs IH]; intros queue counter enqueued Hp; simpl; [done|].
  assert (∀ v, v ∈ nbrs -> is_Some (priority v)) as Hp' by (intros; apply Hp; by right).
  destruct (decide (nb ∈ enqueued)); [by apply IH|].
  unfold push. destruct (Hp nb) as [p ->]; [left|]. simpl. by apply IH.
Qed.

Lemma pfs_while_raises fuel graph priority sz queue counter visited enqueued e :
  size (targets graph ∖ enqueued) + length queue <= fuel ->
  pfs_while fuel graph priority sz queue counter visited enqueued = Raise e ->
  e = KeyError ∨ e = TypeError.
Proof.
  revert queue counter visited enqueued.
  induction fuel as [|fuel IH]; intros queue counter visited enqueued Hm; simpl;
    destruct (heappop queue) as [[x queue1]|] eqn:Hpop; try done.
  - apply heappop_Some in Hpop as (_ & _ & Hlen). lia.
  - case_bool_decide; [|done].
    apply heappop_Some in Hpop as (_ & _ & Hlen).
    destruct (decide (x.2 ∈ visited)); [apply IH; lia|].
    unfold getitem. destruct (od_get graph x.2) as [nbrs|] eqn:Hg; simpl;
      [|intros [= <-]; by left].
    destruct (pfs_for _ _ _ _ _) as [st|e'] eqn:Hfor; simpl.
    + apply IH. apply (pfs_for_measure (targets graph)) in Hfor; [lia|].
      intros v Hv. by eapply adjacency_targets.
    + intros [= <-]. right. by eapply pfs_for_raises.
Qed.


Lemma pfs_while_total fuel graph priority sz queue counter visited enqueued :
  closed graph ->
  (∀ v, v ∈ graph.*1 -> is_Some (priority v)) ->
  (∀ x, x ∈ queue -> x.2 ∈ graph.*1) ->
  size (targets graph ∖ enqueued) + length queue <= fuel ->
  is_ok (pfs_while fuel graph priority sz queue counter visited enqueued) = true.
Proof.
  intros Hc Hp. revert queue counter visited enqueued.
  induction fuel as [|fuel IH]; intros queue counter visited enqueued Hq Hm; simpl;
    destruct (heappop queue) as [[x queue1]|] eqn:Hpop; try done.
  - apply heappop_Some in Hpop as (_ & _ & Hlen). lia.
  - case_bool_decide; [|done].
    apply heappop_Some in Hpop as (Hx & Hsub & Hlen).
    destruct (decide (x.2 ∈ visited)); [apply IH; [auto|lia]|].
    unfold getitem. destruct (od_get graph x.2) as [nbrs|] eqn:Hg; simpl.
    2:{ apply od_get_None in Hg. destruct Hg. auto. }
    assert (∀ v, v ∈ nbrs -> v ∈ graph.*1) as Hn.
    { intros v Hv. apply Hc. by eapply adjacency_targets. }
    pose proof (pfs_for_total priority nbrs queue1 counter enqueued) as Hft.
    destruct (pfs_for _ _ _ _ _) as [st|e'] eqn:Hfor; simpl.
    2:{ discriminate Hft. auto. }
    apply IH.
    + intros y Hy. destruct (pfs_for_queue _ _ _ _ _ _ _ Hfor Hy); auto.
    + apply (pfs_for_measure (targets graph)) in Hfor; [lia|].
      intros v Hv. by eapply adjacency_targets.
Qed.

(** *** Graphs built through the networkx operations are closed *)

Lemma elem_of_add_node x u (g : Graph) :
  x ∈ (add_node u g).*1 ↔ x = u ∨ x ∈ g.*1.
Proof.
  unfold add_node, has_node. case_bool_decide as Hu.
  - split; [by right|]. by intros [->|].
  - rewrite fmap_app, elem_of_app. simpl. set_solver.
Qed.

Lemma add_half_nodes u v (g : Graph) : (add_half u v g).*1 = g.*1.
Proof.
  unfold add_half. rewrite <- list_fmap_compose. apply list_fmap_ext.
  intros i [w ns] _. simpl. by destruct (decide _).
Qed.

Lemma elem_of_add_edge x u v (g : Graph) :
  x ∈ (add_edge u v g).*1 ↔ x = u ∨ x = v ∨ x ∈ g.*1.
Proof.
  unfold add_edge. rewrite !add_half_nodes, !elem_of_add_node. tauto.
Qed.

Lemma targets_add_node u (g : Graph) x :
  x ∈ targets (add_node u g) -> x ∈ targets g.
Proof.
  unfold add_node. destruct (has_node g u); [done|].
  rewrite !elem_of_targets. intros (p & Hp & Hx).
  apply elem_of_app in Hp as [Hp|Hp]; [eauto|].
  apply list_elem_of_singleton in Hp as ->. by apply elem_of_nil in Hx.
Qed.

Lemma targets_add_half u v (g : Graph) x :
  x ∈ targets (add_half u v g) -> x = v ∨ x ∈ targets g.
Proof.
  rewrite !elem_of_targets. intros (p & Hp & Hx). unfold add_half in Hp.
  apply list_elem_of_fmap in Hp as (q & -> & Hq).
  destruct (decide (q.1 = u)); [|right; eauto].
  simpl in Hx. destruct (decide (v ∈ q.2)); [right; eauto|].
  apply elem_of_app in Hx as [Hx|Hx]; [right; eauto|].
  apply list_elem_of_singleton in Hx. by left.
Qed.

Lemma closed_add_node u g : closed g -> closed (add_node u g).
Proof.
  intros Hc x Hx. apply targets_add_node in Hx. apply elem_of_add_node. right. auto.
Qed.

Lemma closed_add_edge u v g : closed g -> closed (add_edge u v g).
Proof.
  intros Hc x Hx. apply elem_of_add_edge. unfold add_edge in Hx.
  apply targets_add_half in Hx as [->|Hx]; [by left|].
  apply targets_add_half in Hx as [->|Hx]; [right; by left|].
  do 2 apply targets_add_node in Hx. right. right. auto.
Qed.

Lemma closed_to_networkx_graph bqm : closed (to_networkx_graph bqm).
Proof.
  unfold to_networkx_graph.
  assert (∀ (es : list (nat * nat * Qc)) g, closed g ->
            closed (foldl (fun g e => add_edge e.1.1 e.1.2 g) g es)) as He.
  { induction es as [|e es IH]; intros g Hg; simpl; [done|].
    apply IH. by apply closed_add_edge. }
  assert (∀ (vs : list nat) g, closed g ->
            closed (foldl (fun g v => add_node v g) g vs)) as Hv.
  { induction vs as [|v vs IH]; intros g Hg; simpl; [done|].
    apply IH. by apply closed_add_node. }
  apply He, Hv. intros x Hx. apply elem_of_targets in Hx as (p & Hp & _).
  by apply elem_of_nil in Hp.
Qed.

Lemma nodes_remove_nodes (g : Graph) (s : gset nat) u :
  u ∈ (remove_nodes_from g s).*1 ↔ u ∈ g.*1 ∧ u ∉ s.
Proof.
  unfold remove_nodes_from. rewrite <- list_fmap_compose.
  rewrite !list_elem_of_fmap. split.
  - intros (p & -> & Hp). apply list_elem_of_filter in Hp as [Hs Hp].
    split; [|done]. eauto.
  - intros [(p & -> & Hp) Hs]. exists p. split; [done|].
    by apply list_elem_of_filter.
Qed.

Lemma closed_remove_nodes g s : closed g -> closed (remove_nodes_from g s).
Proof.
  intros Hc x Hx. apply targets_remove_nodes in Hx as [Hx Hs].
  apply nodes_remove_nodes. auto.
Qed.

(** *** The search methods never run out of steps *)



Lemma _bfs_nodes_steps : steps_suffice _bfs_nodes.
Proof.
  intros graph source sz priority. unfold _bfs_nodes.
  case_bool_decide; [done|]. unfold islice. destruct (sz - 1); [done|].
  destruct (bfs_edges graph source) as [es|e] eqn:Hb; [done|].
  apply bfs_edges_raises in Hb as ->. done.
Qed.

Lemma _bfs_nodes_returns : returns_on_ranked _bfs_nodes.
Proof.
  intros graph source sz priority _ Hs _. unfold _bfs_nodes.
  case_bool_decide; [done|]. unfold islice. destruct (sz - 1); [done|].
  apply bfs_edges_total in Hs. by destruct (bfs_edges graph source).
Qed.

Lemma _pfs_nodes_steps : steps_suffice _pfs_nodes.
Proof.
  intros graph source sz priority. unfold _pfs_nodes.
  case_bool_decide; [done|]. unfold push.
  destruct (priority source) as [p|]; [|done].
  cbn [mbind result_bind fst snd].
  destruct (pfs_while _ _ _ _ _ _ _ _) as [vis|e] eqn:Hw; [done|].
  apply pfs_while_raises in Hw as [-> | ->]; [done|done|].
  unfold search_fuel. cbn [length app].
  assert (size (targets graph ∖ ∅) <= size (targets graph)); [|lia].
  apply subseteq_size. set_solver.
Qed.

Lemma _pfs_nodes_returns : returns_on_ranked _pfs_nodes.
Proof.
  intros graph source sz priority Hc Hs Hp. unfold _pfs_nodes.
  case_bool_decide; [done|]. unfold push.
  destruct (Hp source Hs) as [p ->]. cbn [mbind result_bind fst snd].
  pose proof (pfs_while_total (search_fuel graph) graph priority sz
                ([] ++ [((- p)%Qc, 0, source)]) 1 ∅ ∅ Hc Hp) as Ht.
  destruct (pfs_while _ _ _ _ _ _ _ _) as [vis|e]; [done|].
  discriminate Ht.
  - intros x Hx. apply list_elem_of_singleton in Hx as ->. done.
  - unfold search_fuel. cbn [length app].
    assert (size (targets graph ∖ ∅) <= size (targets graph)); [|lia].
    apply subseteq_size. set_solver.
Qed.

Lemma search_loop_steps method ordered_priority visited sz graph vars order :
  steps_suffice method ->
  search_loop method ordered_priority visited sz graph vars order ≠ Raise OutOfFuel.
Proof.
  intros Hm. revert graph vars.
  induction order as [|source order IH]; intros graph vars; simpl.
  - by destruct (_ && _).
  - destruct (_ && _); [|done]. destruct (_ || _); [apply IH|].
    destruct (method graph source _ _) as [nodes|e] eqn:Hn; simpl; [apply IH|].
    intros [= ->]. by apply Hm in Hn.
Qed.

Lemma search_loop_returns method ordered_priority visited sz graph vars order :
  returns_on_ranked method ->
  closed graph ->
  (∀ v, v ∈ graph.*1 -> is_Some (od_get ordered_priority v)) ->
  (∀ v, v ∈ order -> v ∉ visited -> v ∉ vars -> v ∈ graph.*1) ->
  is_ok (search_loop method ordered_priority visited sz graph vars order) = true.
Proof.
  intros Hm. revert graph vars.
  induction order as [|source order IH]; intros graph vars Hc Hp Ho; simpl.
  - by destruct (_ && _).
  - destruct (_ && _); [|done].
    assert (∀ v, v ∈ order -> v ∉ visited -> v ∉ vars -> v ∈ graph.*1) as Ho'
      by (intros; apply Ho; [by right|done..]).
    destruct (bool_decide (source ∈ visited)) eqn:Hsv; simpl; [by apply IH|].
    destruct (bool_decide (source ∈ vars)) eqn:Hsw; simpl; [by apply IH|].
    apply bool_decide_eq_false_1 in Hsv, Hsw.
    pose proof (Hm graph source (sz - size vars) (od_get ordered_priority) Hc
                  (Ho source ltac:(left) Hsv Hsw) Hp) as Hok.
    destruct (method graph source _ _) as [nodes|e]; [|done]. simpl.
    apply IH.
    + by apply closed_remove_nodes.
    + intros v Hv. apply nodes_remove_nodes in Hv as [Hv _]. auto.
    + intros v Hv Hvis Hvars. apply nodes_remove_nodes.
      split; [apply Ho'; [done..|set_solver]|set_solver].
Qed.


Lemma _iterative_graph_search_returns method bqm sample ordered_priority visited sz :
  returns_on_ranked method ->
  (∀ v, v ∈ od_keys ordered_priority ↔ v ∈ (to_networkx_graph bqm).*1) ->
  is_ok (_iterative_graph_search method bqm sample ordered_priority visited sz) = true.
Proof.
  intros Hm Hr. unfold _iterative_graph_search.
  pose proof (search_loop_returns method ordered_priority visited sz
                (remove_nodes_from (to_networkx_graph bqm) visited) ∅
                (od_keys ordered_priority) Hm) as Hs.
  destruct (search_loop _ _ _ _ _ _ _); [done|]. discriminate Hs.
  - apply closed_remove_nodes, closed_to_networkx_graph.
  - intros v Hv. apply nodes_remove_nodes in Hv as [Hv _].
    apply od_get_is_Some. by apply Hr.
  - intros v Hv Hvis _. apply nodes_remove_nodes. split; [by apply Hr|done].
Qed.

Lemma _iterative_graph_search_steps method bqm sample ordered_priority visited sz :
  steps_suffice method ->
  _iterative_graph_search method bqm sample ordered_priority visited sz
  ≠ Raise OutOfFuel.
Proof.
  intros Hm. unfold _iterative_graph_search.
  pose proof (search_loop_steps method ordered_priority visited sz
                (remove_nodes_from (to_networkx_graph bqm) visited) ∅
                (od_keys ordered_priority) Hm) as Hs.
  destruct (search_loop _ _ _ _ _ _ _) as [|e]; [done|]. simpl. congruence.
Qed.

(** C4.  For every model, ranking, visited set and size, the breadth-first
    and the priority-first traversal return at most [size] variables, all
    different, none of them in the visited set handed in.  The search
    never runs out of steps, and it does return whenever the ranking has
    exactly the nodes of the model's graph (as the ranking of a model
    without a gain threshold has). *)
Theorem C4_graph_search_bounded (method : Method) (bqm : BQM) (sample : Sample)
    (ordered_priority : list (nat * Qc)) (visited : gset nat) (sz : nat) :
  method = _bfs_nodes ∨ method = _pfs_nodes ->
  let r := _iterative_graph_search method bqm sample ordered_priority visited sz in
  (∀ l, r = Ok l -> length l <= sz ∧ NoDup l ∧ ∀ v, v ∈ l -> v ∉ visited)
  ∧ r ≠ Raise OutOfFuel
  ∧ ((∀ v, v ∈ od_keys ordered_priority ↔ v ∈ (to_networkx_graph bqm).*1) ->
     is_ok r = true).
Proof.
  intros Hm r. subst r.
  assert (bounded_method method ∧ steps_suffice method ∧ returns_on_ranked method)
    as (Hb & Hs & Hr).
  { destruct Hm as [-> | ->].
    - split; [apply _bfs_nodes_bounded|].
      split; [apply _bfs_nodes_steps|apply _bfs_nodes_returns].
    - split; [apply _pfs_nodes_bounded|].
      split; [apply _pfs_nodes_steps|apply _pfs_nodes_returns]. }
  split; [|split].
  - intros l Hl. by eapply _iterative_graph_search_sound.
  - by apply _iterative_graph_search_steps.
  - by apply _iterative_graph_search_returns.
Qed.
End search.

(** ** EnergyImpactDecomposer *)

(** Split every conditional of the goal on its test. *)
Ltac case_conditions :=
  repeat match goal with
         | |- context [if ?b then _ else _] => destruct b
         end.

Lemma bqm_eqb_refl bqm : bqm_eqb bqm bqm = true.
Proof. unfold bqm_eqb. by rewrite !bool_decide_eq_true_2. Qed.

Lemma bqm_differs_same bqm : bqm_differs bqm (Some bqm) = false.
Proof. simpl. by rewrite bqm_eqb_refl. Qed.

Section energy_impact.
Context `{HybridUtils}.
Import EnergyImpactDecomposer.


Lemma same_config_refl a : same_config a a.
Proof. by repeat split. Qed.

Lemma same_config_trans a b c : same_config a b -> same_config b c -> same_config a c.
Proof. unfold same_config. intuition congruence. Qed.

Lemma prepare_config self state sample : same_config self (prepare self state sample).
Proof.
  unfold prepare.
  case_conditions;
    by repeat split.
Qed.

Lemma prepare_unrolled self state sample :
  _unrolled_vars (prepare self state sample)
  = if bqm_differs (problem state) (_rolling_bqm self) then ∅ else _unrolled_vars self.
Proof.
  unfold prepare.
  case_conditions;
    reflexivity.
Qed.

Lemma prepare_rolling_bqm self state sample :
  _rolling_bqm (prepare self state sample)
  = if bqm_differs (problem state) (_rolling_bqm self) then Some (problem state)
    else _rolling_bqm self.
Proof.
  unfold prepare.
  case_conditions;
    reflexivity.
Qed.

Lemma select_config self state sample lg :
  same_config self (select self state sample lg).1.1.
Proof.
  unfold select. destruct (traverse self _ _ _ _ _); simpl; [|apply same_config_refl].
  destruct (rolling self); by repeat split.
Qed.

Lemma next_config self state : same_config self (next self state).1.1.
Proof.
  unfold next. destruct (best_sample _ _) as [sample|]; simpl; [|apply same_config_refl].
  pose proof (prepare_config self state sample) as Hp.
  set (p := prepare self state sample) in *.
  assert (same_config p (_rewind_rolling p state)) as Hr by by repeat split.
  destruct (rolling p && history_reached p (problem state)).
  - destruct (negb _).
    + exact (same_config_trans _ _ _ Hp Hr).
    + eapply same_config_trans; [|apply select_config].
      exact (same_config_trans _ _ _ Hp Hr).
  - eapply same_config_trans; [exact Hp|apply select_config].
Qed.

Lemma history_reached_zero self bqm :
  rolling_history self = 0%Qc -> history_reached self bqm = true.
Proof.
  intros Hh. unfold history_reached. rewrite Hh, float_mul_0.
  apply bool_decide_eq_true_2. rewrite <- Z2Qc_inj_0.
  apply (proj1 (Z2Qc_inj_le _ _)). lia.
Qed.

Lemma next_zero_history self state :
  rolling self = true -> rolling_history self = 0%Qc -> silent_rewind self = false ->
  is_ok (best_sample (problem state) (samples state)) = true ->
  (next self state).2 = Raise EndOfStream.
Proof.
  intros Hr Hh Hs Hv. unfold next.
  destruct (best_sample _ _) as [sample|]; [|done].
  destruct (prepare_config self state sample) as (_ & _ & Hr' & Hh' & Hs' & _).
  rewrite <- Hr', Hr, history_reached_zero by congruence. simpl.
  by rewrite <- Hs', Hs.
Qed.

(** C10.  With rolling enabled, [rolling_history = 0] and
    [silent_rewind = False], every call of [next] on a state with a sample
    raises [EndOfStream], the first one included: no subproblem is ever
    returned. *)
Theorem C10_zero_history_always_end_of_stream (self : t) (states : list State) :
  rolling self = true -> rolling_history self = 0%Qc -> silent_rewind self = false ->
  Forall (fun state => is_ok (best_sample (problem state) (samples state)) = true) states ->
  Forall (fun c => outcome c = Raise EndOfStream) (run self states)
  ∧ length (run self states) = length states.
Proof.
  intros Hr Hh Hs Hv. revert self Hr Hh Hs.
  induction Hv as [|state states Hst _ IH]; intros self Hr Hh Hs; simpl.
  - by split.
  - destruct (next_config self state) as (_ & _ & Hr' & Hh' & Hs' & _).
    destruct (IH (next self state).1.1) as [IH1 IH2]; [congruence..|].
    split; [|by rewrite IH2].
    constructor; [|done]. simpl. by apply next_zero_history.
Qed.

Lemma prepare_prev_sample self state sample :
  _prev_sample (prepare self state sample) = Some sample.
Proof.
  unfold prepare.
  destruct (sample_differs sample (_prev_sample self)) eqn:Hs.
  - repeat (match goal with |- context [if ?b then _ else _] => destruct b end);
      reflexivity.
  - unfold sample_differs in Hs. destruct (_prev_sample self) as [s|] eqn:Hp; [|done].
    apply negb_false_iff, bool_decide_eq_true_1 in Hs. subst s.
    case_conditions;
      simpl; by rewrite ?Hp.
Qed.


Lemma prepare_priority_empty self state sample :
  _variable_priority (prepare self state sample) = [] ->
  ranking (problem state) sample (min_gain self) = [].
Proof.
  unfold prepare.
  destruct (bqm_differs _ _), (sample_differs _ _); simpl; try done.
  destruct (bool_decide _) eqn:Hd; simpl; [done|].
  intros He. by rewrite He in Hd.
Qed.

Lemma sample_differs_same sample : sample_differs sample (Some sample) = false.
Proof. simpl. by rewrite bool_decide_eq_true_2. Qed.








Lemma history_reached_spec self bqm :
  history_reached self bqm = true
  ↔ (history_bound self bqm <= Qc_of_Z (Z.of_nat (size (_unrolled_vars self))))%Qc.
Proof. unfold history_reached. apply bool_decide_eq_true. Qed.

Lemma select_energy self state sample lg :
  traverse self = _energy -> rolling self = true ->
  let r := select self state sample lg in
  size (_unrolled_vars r.1.1) <= size (_unrolled_vars self) + self_size self
  ∧ _rolling_bqm r.1.1 = _rolling_bqm self
  ∧ ∃ vars, r.1.2 = lg ++ [LogSelected (length vars) vars].
Proof.
  intros Ht Hr. unfold select. rewrite Ht, Hr. unfold _energy. simpl.
  split; [|split; [done|eauto]].
  etrans; [apply size_union_le|].
  pose proof (size_list_to_set_le
    (take (self_size self)
       (filter (fun v => v ∉ _unrolled_vars self) (od_keys (_variable_priority self))))) as Hl.
  rewrite length_take in Hl. lia.
Qed.


Lemma next_energy_call self state :
  traverse self = _energy -> rolling self = true ->
  is_ok (best_sample (problem state) (samples state)) = true ->
  settled self (problem state) ->
  let r := next self state in
  (Z.of_nat (size (_unrolled_vars r.1.1))
   <= Z.max (Qceiling (history_bound self (problem state)) - 1) 0
      + Z.of_nat (self_size self))%Z
  ∧ ((∃ m, LogRollingReset m ∈ r.1.2)
     ↔ (history_bound self (problem state)
        <= Qc_of_Z (Z.of_nat (size (_unrolled_vars self))))%Qc)
  ∧ settled r.1.1 (problem state).
Proof.
  intros Ht Hr Hv Hset r. subst r. unfold next.
  destruct (best_sample _ _) as [sample|]; [|done].
  destruct (prepare_config self state sample) as (Hsz & _ & Hr' & Hh' & Hs' & Htr).
  pose proof (prepare_unrolled self state sample) as Hu.
  pose proof (prepare_rolling_bqm self state sample) as Hb.
  set (p := prepare self state sample) in *.
  assert (_unrolled_vars p = _unrolled_vars self) as Hu'.
  { rewrite Hu. destruct Hset as [-> | ->]; [done|]. by destruct (bqm_differs _ _). }
  assert (bqm_differs (problem state) (_rolling_bqm p) = false) as Hb'.
  { rewrite Hb. destruct (bqm_differs _ _) eqn:Hd; [apply bqm_differs_same|done]. }
  assert (history_bound p (problem state) = history_bound self (problem state)) as Hhb
    by (unfold history_bound; congruence).
  rewrite <- Hr', Hr. cbn [andb].
  set (lg0 := if bool_decide _ then _ else _).
  assert (∀ m, LogRollingReset m ∉ lg0) as Hlg0.
  { intros m. unfold lg0. destruct (bool_decide _); set_solver. }
  destruct (history_reached p (problem state)) eqn:Hh.
  - apply history_reached_spec in Hh. rewrite Hhb, Hu' in Hh.
    destruct (negb _).
    + cbn [fst snd]. change (_unrolled_vars (_rewind_rolling p state)) with (∅ : gset nat).
      rewrite size_empty. split; [lia|]. split; [|by left; apply bqm_differs_same].
      split; [done|]. intros _. exists (size (_unrolled_vars p)). set_solver.
    + destruct (select_energy (_rewind_rolling p state) state sample
                  (lg0 ++ [LogRollingReset (size (_unrolled_vars p))]))
        as (Hsize & Hbq & vars & Hlog); [simpl; congruence..|].
      change (_unrolled_vars (_rewind_rolling p state)) with (∅ : gset nat) in Hsize.
      change (self_size (_rewind_rolling p state)) with (self_size p) in Hsize.
      rewrite size_empty in Hsize.
      split; [rewrite <- Hsz in Hsize; lia|].
      split; [|left; rewrite Hbq; apply bqm_differs_same].
      split; [done|]. intros _. exists (size (_unrolled_vars p)). rewrite Hlog. set_solver.
  - assert (¬ (history_bound self (problem state)
              <= Qc_of_Z (Z.of_nat (size (_unrolled_vars self))))%Qc) as Hnot.
    { intros Hle. rewrite <- Hhb, <- Hu' in Hle. apply history_reached_spec in Hle. congruence. }
    destruct (select_energy p state sample lg0)
      as (Hsize & Hbq & vars & Hlog); [congruence..|].
    apply below_ceiling in Hnot as Hceil.
    split; [rewrite Hu', <- Hsz in Hsize; lia|].
    split; [|left; by rewrite Hbq].
    split; [|done]. intros [m Hm]. rewrite Hlog in Hm.
    apply elem_of_app in Hm as [Hm | Hm]; [by apply Hlg0 in Hm|set_solver].
Qed.

(** C2 (amended).  For a decomposer built with rolling enabled and
    traversal ["energy"], over any number of successive calls of [next] on
    one state: after every call the visited set has at most
    [max (ceil b - 1) 0 + size] entries, and the call logs a rolling
    reset exactly when the visited set it starts from has at least [b]
    entries, where [b] is the float product [rolling_history * len(bqm)]
    as line 252 computes it. *)
Theorem C2_rolling_history_bound (sz : nat) (mg : option Qc) (h : Qc) (silent : bool)
    (self : t) (state : State) (N : nat) :
  __init__ sz mg true h silent "energy" = Ok self ->
  is_ok (best_sample (problem state) (samples state)) = true ->
  let bound := float_mul h (len (problem state)) in
  Forall (fun c =>
            (Z.of_nat (size (_unrolled_vars (after c)))
             <= Z.max (Qceiling bound - 1) 0 + Z.of_nat sz)%Z
            ∧ ((∃ m, LogRollingReset m ∈ log c)
               ↔ (bound <= Qc_of_Z (Z.of_nat (size (_unrolled_vars (before c)))))%Qc))
         (run self (replicate N state))
  ∧ length (run self (replicate N state)) = N.
Proof.
  intros Hinit Hv bound.
  assert (traverse self = _energy ∧ rolling self = true ∧ self_size self = sz
          ∧ rolling_history self = h ∧ settled self (problem state)) as Hinv.
  { unfold __init__ in Hinit. destruct (_ || _); [done|]. simpl in Hinit.
    injection Hinit as <-. simpl. repeat split. by right. }
  clear Hinit. revert self Hinv.
  induction N as [|N IH]; intros self (Ht & Hr & Hsz & Hh & Hset); simpl; [by split|].
  destruct (next_energy_call self state Ht Hr Hv Hset) as (Hb & Hl & Hset').
  destruct (next_config self state) as (Hsz' & _ & Hr' & Hh' & _ & Ht').
  destruct (IH (next self state).1.1) as [IH1 IH2].
  { repeat split; [congruence..|done]. }
  split; [|by rewrite IH2].
  constructor; [|done]. simpl.
  unfold history_bound in Hb, Hl. rewrite Hh, Hsz in *. by split.
Qed.

(** C5.  A decomposer configured with size 5 on a problem of three
    variables logs that it adapts to the problem size, and then calls the
    traversal, whichever it is, with size 5: the clamped size is not the
    one that reaches the traversal step. *)
Theorem C5_traversal_gets_configured_size (tr : Traverser) :
  let self := Inputs.fresh 5 false Inputs.tenth true tr in
  let state := Inputs.state_of [0; 1; 2] in
  let sample := Inputs.zeros [0; 1; 2] in
  len (problem state) = 3
  ∧ (next self state).1.2 !! 0 = Some LogAdapting
  ∧ (next self state).2
    = (next_vars ← tr (problem state) sample
                    (ranking (problem state) sample None) ∅ 5;
       subbqm ← bqm_induced_by (problem state) next_vars sample;
       Ok (updated_subproblem (converted state) subbqm)).
Proof.
  intros self state sample.
  assert (best_sample (problem state) (samples state) = Ok sample) as Hb
    by (vm_compute; reflexivity).
  split; [reflexivity|].
  unfold next. rewrite Hb.
  change (prepare self state sample)
    with (set_cache (set_cache (_rewind_rolling self state) [] (Some sample))
            (ranking (problem state) sample None) (Some sample)).
  change (bool_decide (len (problem state) < self_size self)) with true.
  subst self. unfold select.
  cbn [Inputs.fresh rolling traverse self_size set_cache _rewind_rolling
       set_rolling _variable_priority _unrolled_vars andb].
  destruct (tr _ _ _ _ _); done.
Qed.
End energy_impact.

(** What the energy traversal selects never exceeds the number of ranked
    variables, whatever size it is called with. *)
Lemma _energy_at_most_ranked bqm sample ordered_priority visited sz l :
  EnergyImpactDecomposer._energy bqm sample ordered_priority visited sz = Ok l ->
  length l <= length ordered_priority.
Proof.
  unfold EnergyImpactDecomposer._energy. intros [= <-]. rewrite length_take.
  etrans; [apply Nat.le_min_r|]. etrans; [apply length_filter|].
  unfold od_keys. by rewrite length_fmap.
Qed.

Lemma C2_rolling_history_bound_witness :
  let self := Inputs.fresh 3 true Inputs.half true EnergyImpactDecomposer._energy in
  let state := Inputs.state_of [0; 1; 2; 3] in
  let bound := float_mul Inputs.half (len (problem state)) in
  Forall (fun c =>
            (Z.of_nat (size (EnergyImpactDecomposer._unrolled_vars (EnergyImpactDecomposer.after c)))
             <= Z.max (Qceiling bound - 1) 0 + Z.of_nat 3)%Z
            ∧ ((∃ m, LogRollingReset m ∈ EnergyImpactDecomposer.log c)
               ↔ (bound <= Qc_of_Z (Z.of_nat
                     (size (EnergyImpactDecomposer._unrolled_vars (EnergyImpactDecomposer.before c)))))%Qc))
         (@EnergyImpactDecomposer.run SpecUtils.utils self (replicate 4 state))
  ∧ length (@EnergyImpactDecomposer.run SpecUtils.utils self (replicate 4 state)) = 4.
Proof.
  apply (@C2_rolling_history_bound SpecUtils.utils 3 None Inputs.half true).
  - vm_compute. reflexivity.
  - vm_compute. reflexivity.
Defined.

(** C2, as stated, fails: with [rolling_history = 1/2] on four variables
    the bound is 2, and the first call, which logs no rolling reset, leaves
    three variables in the visited set. *)
Lemma C2_visited_exceeds_ceiling :
  let self := Inputs.fresh 3 true Inputs.half true EnergyImpactDecomposer._energy in
  let state := Inputs.state_of [0; 1; 2; 3] in
  let c := @EnergyImpactDecomposer.next SpecUtils.utils self state in
  EnergyImpactDecomposer.__init__ 3 None true Inputs.half true "energy" = Ok self
  ∧ c.1.2 = [LogSelected 3 [0; 1; 2]]
  ∧ Qceiling (Inputs.half * Qc_of_Z (Z.of_nat (len (problem state))))%Qc = 2%Z
  ∧ this (history_bound self (problem state)) = 2%Q
  ∧ size (EnergyImpactDecomposer._unrolled_vars c.1.1) = 3.
Proof. vm_compute. done. Qed.

(** Rounding at work: below and above the middle, and the two kinds of
    halves. *)
Example fl_to_nearest_even :
  this (fl (Q2Qc (1 # 3))) = (6004799503160661 # 18014398509481984)%Q
  ∧ this (fl (Qc_of_Z (2 ^ 53 + 1))) = inject_Z (2 ^ 53)
  ∧ this (fl (Qc_of_Z (2 ^ 53 + 3))) = inject_Z (2 ^ 53 + 4)
  ∧ this (fl (Qc_of_Z (2 ^ 54 + 3))) = inject_Z (2 ^ 54 + 4)
  ∧ this (fl (- Q2Qc (1 # 10))) = (- 3602879701896397 # 36028797018963968)%Q.
Proof. vm_compute. done. Qed.

(** The float product at work.  The default [rolling_history] is the
    float [0.1], a little above one tenth; on ten variables the exact
    product is above 1 and the float product is 1, so that with size 1
    the second call, which starts from one visited variable, rewinds. *)
Example default_history_on_ten_variables :
  let vs := seq 0 10 in
  let self := Inputs.fresh 1 true Inputs.tenth true EnergyImpactDecomposer._energy in
  this Inputs.tenth = (3602879701896397 # 36028797018963968)%Q
  ∧ (1 < Inputs.tenth * Qc_of_Z 10)%Qc
  ∧ this (history_bound self (Inputs.complete vs)) = 1%Q
  ∧ (fun c => (size (EnergyImpactDecomposer._unrolled_vars
                       (EnergyImpactDecomposer.after c)), rewinds c))
      <$> @EnergyImpactDecomposer.run SpecUtils.utils self
            (replicate 3 (Inputs.state_of vs))
    = [(1, false); (1, true); (1, true)].
Proof. vm_compute. done. Qed.

(** The float [0.28] on 25 variables: the float product is just above 7,
    so that with size 7 the second call, which starts from seven visited
    variables, does not rewind and leaves fourteen. *)
Example history_just_above_seven :
  let vs := seq 0 25 in
  let self := Inputs.fresh 7 true (fl (Q2Qc (28 # 100))) true
                EnergyImpactDecomposer._energy in
  this (history_bound self (Inputs.complete vs))
  = (7881299347898369 # 1125899906842624)%Q
  ∧ (fun c => (size (EnergyImpactDecomposer._unrolled_vars
                       (EnergyImpactDecomposer.after c)), rewinds c))
      <$> @EnergyImpactDecomposer.run SpecUtils.utils self
            (replicate 3 (Inputs.state_of vs))
    = [(7, false); (14, false); (7, true)].
Proof. vm_compute. done. Qed.



Lemma C4_graph_search_bounded_witness :
  let bqm := Inputs.complete [0; 1; 2; 3] in
  let order := [(2, 1%Qc); (0, 1%Qc); (1, 0%Qc); (3, 0%Qc)] in
  let r := EnergyImpactDecomposer._iterative_graph_search EnergyImpactDecomposer._pfs_nodes bqm
             (Inputs.zeros [0; 1; 2; 3]) order {[0]} 2 in
  is_ok r = true
  ∧ ∀ l, r = Ok l -> length l <= 2 ∧ NoDup l ∧ ∀ v, v ∈ l -> v ∉ ({[0]} : gset nat).
Proof.
  intros bqm order r.
  destruct (C4_graph_search_bounded EnergyImpactDecomposer._pfs_nodes bqm
              (Inputs.zeros [0; 1; 2; 3]) order {[0]} 2 (or_intror eq_refl))
    as (Hs & _ & Ht).
  split; [|exact Hs]. apply Ht. intros v.
  change (od_keys order) with [2; 0; 1; 3].
  change ((to_networkx_graph bqm).*1) with [0; 1; 2; 3].
  rewrite !elem_of_cons, !elem_of_nil. tauto.
Defined.

(** C8 (amended).  With rolling enabled, every [rolling_history] outside
    [0, 1] makes [__init__] raise [ValueError]. *)
Theorem C8_init_rejects_history_when_rolling
    (sz : nat) (mg : option Qc) (h : Qc) (silent : bool) (traversal : string) :
  (h < 0 ∨ 1 < h)%Qc ->
  EnergyImpactDecomposer.__init__ sz mg true h silent traversal = Raise ValueError.
Proof.
  intros Hh. unfold EnergyImpactDecomposer.__init__.
  destruct Hh as [Hh | Hh].
  - rewrite (bool_decide_eq_true_2 _ Hh). reflexivity.
  - rewrite (bool_decide_eq_true_2 (1 < h)%Qc Hh). rewrite orb_true_r. reflexivity.
Qed.

Lemma C8_init_rejects_history_when_rolling_witness :
  (1 < Q2Qc (3 # 2))%Qc
  ∧ EnergyImpactDecomposer.__init__ 2 None true (Q2Qc (3 # 2)) true "energy" = Raise ValueError.
Proof.
  split; [reflexivity|].
  apply (C8_init_rejects_history_when_rolling 2 None (Q2Qc (3 # 2)) true "energy").
  right. reflexivity.
Defined.

(** C8, as stated, fails: with rolling disabled a negative
    [rolling_history] is accepted. *)
Lemma C8_negative_history_accepted :
  (Q2Qc (-1 # 2) < 0)%Qc
  ∧ EnergyImpactDecomposer.__init__ 2 None false (Q2Qc (-1 # 2)) true "energy"
    = Ok (Inputs.fresh 2 false (Q2Qc (-1 # 2)) true EnergyImpactDecomposer._energy).
Proof. split; [reflexivity|vm_compute; reflexivity]. Qed.

Lemma C10_zero_history_always_end_of_stream_witness :
  let self := Inputs.fresh 2 true 0%Qc false EnergyImpactDecomposer._energy in
  let states := [Inputs.state_of [0; 1; 2]; Inputs.state_of [0; 1; 2; 3]] in
  Forall (fun c => EnergyImpactDecomposer.outcome c = Raise EndOfStream)
         (@EnergyImpactDecomposer.run SpecUtils.utils self states)
  ∧ length (@EnergyImpactDecomposer.run SpecUtils.utils self states) = 2.
Proof.
  apply (@C10_zero_history_always_end_of_stream SpecUtils.utils).
  - reflexivity.
  - reflexivity.
  - reflexivity.
  - repeat constructor.
Defined.

(** ** RandomConstraintDecomposer and RandomSubproblemDecomposer *)

Section random_constraint.
Import RandomConstraintDecomposer.

Lemma shares_spec (const other : gset nat) :
  shares const other = true ↔ ∃ v, v ∈ const ∧ v ∈ other.
Proof.
  unfold shares. rewrite existsb_exists. split.
  - intros (v & Hin & Hv). apply bool_decide_eq_true_1 in Hv.
    exists v. split; [done|]. by apply elem_of_elements, list_elem_of_In.
  - intros (v & Hc & Ho). exists v. split.
    + by apply list_elem_of_In, elem_of_elements.
    + by apply bool_decide_eq_true_2.
Qed.


Lemma linked_sym cs i j : linked cs i j -> linked cs j i.
Proof. intros (Hne & ci & cj & v & ?). split; [done|]. exists cj, ci, v. tauto. Qed.

Lemma link_row_nodes cs ci const CG x :
  cs !! ci = Some const ->
  x ∈ (link_row cs ci const CG).*1 ->
  x ∈ CG.*1 ∨ ∃ j, linked cs x j.
Proof.
  intros Hci. unfold link_row.
  assert (∀ i, i ∈ seq (S ci) (length cs - S ci) -> ci < i) as Hseq.
  { intros i Hi. apply elem_of_seq in Hi. lia. }
  revert CG Hseq. induction (seq (S ci) (length cs - S ci)) as [|i l IH];
    intros CG Hseq; simpl; [by left|].
  intros Hx. apply IH in Hx; [|intros; apply Hseq; by right].
  destruct Hx as [Hx|]; [|by right].
  destruct (cs !! i) as [other|] eqn:Hi; [|by left].
  destruct (shares const other) eqn:Hsh; [|by left].
  apply elem_of_add_edge in Hx. apply shares_spec in Hsh as (v & Hc & Ho).
  assert (ci < i) as Hlt by (apply Hseq; left).
  assert (linked cs i ci) as Hl.
  { split; [lia|]. exists other, const, v. tauto. }
  destruct Hx as [-> | [-> | Hx]]; [right; eauto | right; eauto using linked_sym | by left].
Qed.

Lemma build_graph_nodes cs x :
  x ∈ (build_graph cs).*1 -> ∃ j, linked cs x j.
Proof.
  unfold build_graph.
  assert (∀ p, p ∈ imap (fun ci const => (ci, const)) cs -> cs !! p.1 = Some p.2) as Hp.
  { intros p Hin. apply elem_of_lookup_imap in Hin as (i & c & -> & Hi). done. }
  assert (∀ CG : Graph, x ∈ (foldl (fun CG p => link_row cs p.1 p.2 CG) CG
                    (imap (fun ci const => (ci, const)) cs)).*1 ->
              x ∈ CG.*1 ∨ ∃ j, linked cs x j) as Hgen.
  { induction (imap (fun ci const => (ci, const)) cs) as [|p l IH]; intros CG; simpl;
      [by left|].
    intros Hx. apply IH in Hx; [|intros; apply Hp; by right].
    destruct Hx as [Hx|]; [|by right].
    eapply link_row_nodes; [|done]. apply Hp. left. }
  intros Hx. apply Hgen in Hx as [Hx|]; [|done]. set_solver.
Qed.

(** C9.  The constraint graph has a node for a group only if the group
    shares a variable with another group of the list.  Hence, when no two
    groups share a variable, the graph is empty, and after a successful
    [init] every call of [next] fails with [IndexError] at
    [random.choice], whatever the draw and the state. *)
Theorem C9_constraint_graph_nodes `{HybridUtils} (cs : list (gset nat)) :
  (∀ i, i ∈ (build_graph cs).*1 ->
     ∃ j ci cj v, j ≠ i ∧ cs !! i = Some ci ∧ cs !! j = Some cj ∧ v ∈ ci ∧ v ∈ cj)
  ∧ ((∀ i j ci cj, i ≠ j -> cs !! i = Some ci -> cs !! j = Some cj -> ci ## cj) ->
     build_graph cs = []
     ∧ ∀ self state,
         constraints self = cs ->
         (init self state).2 = Ok tt ->
         ∀ rnd state', next (init self state).1 rnd state' = Raise IndexError).
Proof.
  split.
  - intros i Hi. apply build_graph_nodes in Hi as (j & Hne & ci & cj & v & ?).
    exists j, ci, cj, v. split; [done|tauto].
  - intros Hdisj.
    assert (build_graph cs = []) as Hempty.
    { destruct (build_graph cs) as [|[x ns] g] eqn:Hg; [done|].
      destruct (build_graph_nodes cs x) as (j & Hne & ci & cj & v & Hi & Hj & Hvi & Hvj).
      { rewrite Hg. left. }
      specialize (Hdisj x j ci cj Hne Hi Hj). set_solver. }
    split; [done|]. intros self state Hcs Hinit rnd state'.
    unfold init in *. case_bool_decide; [done|]. simpl.
    unfold next, choose. simpl. by rewrite Hcs, Hempty.
Qed.

(** The accumulation loop never returns more than it was given: a group
    that fits makes it raise. *)
Lemma accumulate_keeps_seed constraints sz vars edges vars' :
  accumulate constraints sz vars edges = Ok vars' -> vars' = vars.
Proof.
  revert vars'. induction edges as [|[u ci] edges IH]; intros vars'; simpl.
  - by intros [= <-].
  - destruct (constraints !! ci); [|done].
    case_bool_decide; simpl; [done|].
    case_bool_decide; [by intros [= <-]|apply IH].
Qed.

(** A reached group whose new variables fit makes the loop raise. *)
Lemma accumulate_fitting_raises constraints sz vars u ci const rest :
  constraints !! ci = Some const ->
  length (filter (fun v => v ∉ vars) (elements const)) + size vars <= sz ->
  accumulate constraints sz vars ((u, ci) :: rest) = Raise TypeError.
Proof.
  intros Hci Hfit. simpl. rewrite Hci. by rewrite bool_decide_eq_true_2.
Qed.

(** Whenever [next] gets its variables, they are the seed group alone. *)
Lemma choose_returns_seed self rnd vars :
  choose self rnd = Ok vars ->
  vars ∈ constraints self ∧ size vars <= self_size self.
Proof.
  unfold choose.
  destruct (constraint_graph self) as [CG|]; [|done].
  destruct (random_choice _ _) as [n|]; simpl; [|done].
  destruct (constraints self !! n) as [seed|] eqn:Hn; [|done].
  case_bool_decide as Hsz; [done|].
  destruct (bfs_edges CG n) as [edges|]; simpl; [|done].
  intros Ha. apply accumulate_keeps_seed in Ha as ->.
  split; [by eapply list_elem_of_lookup_2|lia].
Qed.
End random_constraint.

(** C1.  Size 3, groups {0, 1} and {1, 2} on a problem of three variables,
    seed group 0: the search reaches group 1, whose new variable fits, and
    [variables.add(proposed)] raises [TypeError]; no subset is returned. *)
Theorem C1_fitting_group_raises :
  let state := Inputs.state_of [0; 1; 2] in
  let self := Inputs.constrained 3 [{[0; 1]}; {[1; 2]}] state in
  RandomConstraintDecomposer.constraint_graph self = Some [(1, [0]); (0, [1])]
  ∧ RandomConstraintDecomposer.choose self 0 = Raise TypeError
  ∧ @RandomConstraintDecomposer.next SpecUtils.utils self 0 state = Raise TypeError.
Proof. vm_compute. done. Qed.

(** C7 (amended).  When the size exceeds the number of variables of the
    problem, [RandomSubproblemDecomposer.next] raises [ValueError], and so
    does [RandomConstraintDecomposer.init], the one-time setup. *)
Theorem C7_capacity_errors `{HybridUtils} :
  (∀ (self : RandomSubproblemDecomposer.t) rnd state,
     len (problem state) < RandomSubproblemDecomposer.self_size self ->
     RandomSubproblemDecomposer.next self rnd state = Raise ValueError)
  ∧ (∀ (self : RandomConstraintDecomposer.t) state,
       len (problem state) < RandomConstraintDecomposer.self_size self ->
       RandomConstraintDecomposer.init self state = (self, Raise ValueError)).
Proof.
  split; intros self *; intros Hlt.
  - unfold RandomSubproblemDecomposer.next. by rewrite bool_decide_eq_true_2.
  - unfold RandomConstraintDecomposer.init. by rewrite bool_decide_eq_true_2.
Qed.

Lemma C7_capacity_errors_witness :
  let state := Inputs.state_of [0; 1; 2] in
  let self :=
    {| RandomConstraintDecomposer.self_size := 5;
       RandomConstraintDecomposer.constraints := [{[0; 1]}];
       RandomConstraintDecomposer.constraint_graph := None |} in
  @RandomSubproblemDecomposer.next SpecUtils.utils (RandomSubproblemDecomposer.__init__ 5) 0 state
  = Raise ValueError
  ∧ RandomConstraintDecomposer.init self state = (self, Raise ValueError).
Proof.
  intros state self. destruct (@C7_capacity_errors SpecUtils.utils) as [Ha Hb].
  split.
  - apply Ha. vm_compute. lia.
  - apply Hb. vm_compute. lia.
Defined.

(** C7, as stated, fails: set up on four variables with size 3, the
    constraint decomposer selects on a problem of two variables without a
    capacity error. *)
Lemma C7_select_without_capacity_check :
  let self := Inputs.constrained 3 [{[0; 1]}; {[1; 5; 6]}]
                (Inputs.state_of [0; 1; 5; 6]) in
  let state := Inputs.state_of [0; 1] in
  len (problem state) < RandomConstraintDecomposer.self_size self
  ∧ RandomConstraintDecomposer.choose self 0 = Ok {[0; 1]}
  ∧ is_ok (@RandomConstraintDecomposer.next SpecUtils.utils self 0 state) = true.
Proof.
  split; [vm_compute; lia|]. split; vm_compute; reflexivity.
Qed.

Lemma C9_constraint_graph_nodes_witness :
  (∃ j ci cj v, j ≠ 0 ∧ ([{[0; 1]}; {[1; 2]}] : list (gset nat)) !! 0 = Some ci
                ∧ ([{[0; 1]}; {[1; 2]}] : list (gset nat)) !! j = Some cj
                ∧ v ∈ ci ∧ v ∈ cj)
  ∧ RandomConstraintDecomposer.build_graph [{[0; 1]}; {[2; 3]}] = []
  ∧ @RandomConstraintDecomposer.next SpecUtils.utils
      (Inputs.constrained 2 [{[0; 1]}; {[2; 3]}] (Inputs.state_of [0; 1; 2; 3]))
      7 (Inputs.state_of [0; 1; 2; 3])
    = Raise IndexError.
Proof.
  split.
  - apply (@C9_constraint_graph_nodes SpecUtils.utils [{[0; 1]}; {[1; 2]}]).
    change ((RandomConstraintDecomposer.build_graph [{[0; 1]}; {[1; 2]}]).*1) with [1; 0].
    right. left.
  - destruct (@C9_constraint_graph_nodes SpecUtils.utils [{[0; 1]}; {[2; 3]}])
      as [_ Hd].
    destruct Hd as [He Hn].
    + intros i j ci cj Hne Hi Hj.
      destruct i as [|[|i]], j as [|[|j]]; simplify_eq/=; set_solver.
    + split; [exact He|].
      apply (Hn {| RandomConstraintDecomposer.self_size := 2;
                   RandomConstraintDecomposer.constraints := [{[0; 1]}; {[2; 3]}];
                   RandomConstraintDecomposer.constraint_graph := None |}
               (Inputs.state_of [0; 1; 2; 3])); reflexivity.
Defined.

(** ** TilingChimeraDecomposer *)

Section tiling.
Context `{HybridUtils}.
Import TilingChimeraDecomposer.


Lemma run_list_iter (self : t) (rest : list block) (states : list State) i st :
  blocks self = Some (ListIter rest) ->
  states !! i = Some st ->
  (run self states).2 !! i = Some (drawn st (rest !! i)).
Proof.
  revert self rest i. induction states as [|s states IH]; intros self rest i Hb Hi;
    [done|].
  simpl. unfold next at 1. rewrite Hb.
  destruct i as [|i]; simpl in *.
  - injection Hi as ->. by destruct rest.
  - unfold next. rewrite Hb. destruct rest as [|b rest]; simpl.
    + rewrite (IH _ [] i); [|done..]. done.
    + by rewrite (IH _ rest i).
Qed.

Lemma run_cycle_saved (self : t) (saved : list block) (states : list State) st :
  blocks self = Some (Cycle (Some []) saved 0) ->
  states !! 0 = Some st ->
  (run self states).2 !! 0 = Some (drawn st (saved !! 0)).
Proof.
  intros Hb Hi. destruct states as [|s states]; [done|].
  injection Hi as ->. simpl. unfold next. rewrite Hb. simpl.
  unfold cycle_saved. by destruct (saved !! 0).
Qed.

Lemma run_cycle (self : t) (rest saved : list block) (states : list State) i st :
  blocks self = Some (Cycle (Some rest) saved 0) ->
  states !! i = Some st ->
  (i < length rest -> (run self states).2 !! i = Some (drawn st (rest !! i)))
  ∧ (i = length rest ->
     (run self states).2 !! i = Some (drawn st ((saved ++ rest) !! 0))).
Proof.
  revert self saved states i. induction rest as [|b rest IH];
    intros self saved states i Hb Hi.
  - split; [simpl; lia|]. intros ->. rewrite app_nil_r. by apply run_cycle_saved.
  - destruct states as [|s states]; [done|].
    simpl. unfold next at 1 3. rewrite Hb. simpl.
    destruct i as [|i]; simpl in *.
    + injection Hi as ->. split; [done|lia].
    + unfold next. rewrite Hb. simpl.
      destruct (IH (set_blocks self (Cycle (Some rest) (saved ++ [b]) 0))
                  (saved ++ [b]) states i) as [IH1 IH2]; [done..|].
      split; intros Hlt.
      * apply IH1. lia.
      * rewrite <- (assoc_L (++)) in IH2. apply IH2. lia.
Qed.

Lemma deliver_embedding state b state' :
  deliver state b = Ok state' ->
  embedding state' = Some b.2 ∧ problem state' = problem state.
Proof.
  unfold deliver. destruct (best_sample _ _); [|done]. simpl.
  destruct (bqm_induced_by _ _ _); [|done]. simpl. by intros [= <-].
Qed.

Lemma deliver_returns state b sample sub :
  best_sample (problem state) (samples state) = Ok sample ->
  bqm_induced_by (problem state) (od_keys b.2) sample = Ok sub ->
  deliver state b
  = Ok (updated_subproblem_embedding (converted state) sub b.2).
Proof.
  intros Hs Hsub. unfold deliver. rewrite Hs. cbn [mbind result_bind].
  by rewrite Hsub.
Qed.

(** C6.  The tiles are distinct.  While tiles remain, call [i+1] of
    [next] takes tile [i], with looping disabled and enabled alike, and
    returns the state with the subproblem induced by the tile's variables
    and with the tile's embedding, when the state has a sample and the
    subproblem builder succeeds.  After [T] calls ([T] the number of
    tiles) call [T+1] returns the first tile again with looping enabled.
    With looping disabled it raises [StopIteration], what
    [next(self.blocks)] raises on the exhausted iterator: that is not the
    [EndOfStream] signal. *)
Theorem C6_exhausted_tiles_raise_StopIteration (sz : nat * nat * nat)
    (state0 : State) (states : list State) i st :
  let tl := tiles (__init__ sz false) state0 in
  let once := init (__init__ sz false) state0 in
  let looping := init (__init__ sz true) state0 in
  let returned (b : block) (sub : BQM) : result State :=
    Ok (updated_subproblem_embedding (converted st) sub b.2) in
  states !! i = Some st ->
  NoDup tl
  ∧ (∀ (b : block) sample sub,
       tl !! i = Some b ->
       best_sample (problem st) (samples st) = Ok sample ->
       bqm_induced_by (problem st) (od_keys b.2) sample = Ok sub ->
       (run once states).2 !! i = Some (returned b sub)
       ∧ (run looping states).2 !! i = Some (returned b sub))
  ∧ (i = length tl ->
       (run once states).2 !! i = Some (Raise StopIteration)
       ∧ (run once states).2 !! i ≠ Some (Raise EndOfStream)
       ∧ ∀ (b : block) sample sub,
           tl !! 0 = Some b ->
           best_sample (problem st) (samples st) = Ok sample ->
           bqm_induced_by (problem st) (od_keys b.2) sample = Ok sub ->
           (run looping states).2 !! i = Some (returned b sub)).
Proof.
  intros tl once looping returned Hi.
  split. { eapply NoDup_fmap_1, od_from_pairs_NoDup. }
  pose proof (run_list_iter once tl states i st eq_refl Hi) as Honce.
  destruct (run_cycle looping tl [] states i st eq_refl Hi) as [Hl1 Hl2].
  split.
  - intros b sample sub Hb Hs Hsub. unfold returned.
    rewrite <- (deliver_returns st b sample sub Hs Hsub).
    rewrite Hb in Honce, Hl1. split; [done|]. apply Hl1. by eapply lookup_lt_Some.
  - intros ->. rewrite (lookup_ge_None_2 tl (length tl)) in Honce by lia.
    split; [done|]. split; [by rewrite Honce|].
    intros b sample sub Hb Hs Hsub. unfold returned.
    rewrite <- (deliver_returns st b sample sub Hs Hsub).
    rewrite Hl2 by done. simpl. by rewrite Hb.
Qed.
End tiling.

Lemma C6_exhausted_tiles_raise_StopIteration_witness :
  let st := Inputs.state_of [0; 1; 2; 3] in
  let once := @TilingChimeraDecomposer.init SpecUtils.utils
                (TilingChimeraDecomposer.__init__ (1, 1, 1) false) st in
  let looping := @TilingChimeraDecomposer.init SpecUtils.utils
                   (TilingChimeraDecomposer.__init__ (1, 1, 1) true) st in
  let tile0 : TilingChimeraDecomposer.block := ((0, 0), [(0, [0]); (1, [1])]) in
  (@TilingChimeraDecomposer.run SpecUtils.utils once [st; st; st]).2 !! 2
  = Some (Raise StopIteration)
  ∧ (@TilingChimeraDecomposer.run SpecUtils.utils once [st; st; st]).2 !! 2
    ≠ Some (Raise EndOfStream)
  ∧ ∃ sub,
      (@TilingChimeraDecomposer.run SpecUtils.utils looping [st; st; st]).2 !! 2
      = Some (Ok (updated_subproblem_embedding (converted st) sub tile0.2))
      ∧ (@TilingChimeraDecomposer.run SpecUtils.utils once [st; st; st]).2 !! 0
        = Some (Ok (updated_subproblem_embedding (converted st) sub tile0.2)).
Proof.
  intros st once looping tile0.
  destruct (@C6_exhausted_tiles_raise_StopIteration SpecUtils.utils (1, 1, 1)
              st [st; st; st] 2 st eq_refl) as (_ & _ & H2).
  destruct (@C6_exhausted_tiles_raise_StopIteration SpecUtils.utils (1, 1, 1)
              st [st; st; st] 0 st eq_refl) as (_ & H0 & _).
  destruct (H2 eq_refl) as (Ha & Hb & Hc).
  split; [exact Ha|]. split; [exact Hb|].
  eexists. split.
  - apply (Hc tile0 (Inputs.zeros [0; 1; 2; 3])); [reflexivity| |].
    + vm_compute. reflexivity.
    + vm_compute. reflexivity.
  - apply (H0 tile0 (Inputs.zeros [0; 1; 2; 3])); [reflexivity| |].
    + vm_compute. reflexivity.
    + vm_compute. reflexivity.
Defined.

(** ** The traversals *)

Section traversals.
Import EnergyImpactDecomposer.

Lemma take_filter_closed {A} (P : A -> Prop) `{∀ x, Decision (P x)} (l : list A) n i j v w :
  NoDup l -> l !! i = Some v -> l !! j = Some w -> i < j -> P v ->
  w ∈ take n (filter P l) -> v ∈ take n (filter P l).
Proof.
  intros Hnd Hi Hj Hij Hv Hw.
  apply elem_of_take in Hw as (p & Hp & Hpn).
  assert (l = take j l ++ w :: drop (S j) l) as Hl.
  { by rewrite <- (take_drop_middle l j w Hj) at 1. }
  assert (v ∈ take j l) as Hvt.
  { apply list_elem_of_lookup. exists i. rewrite lookup_take_lt by done. done. }
  assert (w ∉ take j l) as Hwt.
  { intros Hin. rewrite Hl in Hnd. apply NoDup_app in Hnd as (_ & Hd & _).
    apply (Hd w Hin). left. }
  assert (v ∈ filter P (take j l)) as Hvf by (by apply list_elem_of_filter).
  apply list_elem_of_lookup in Hvf as (q & Hq).
  assert (q < length (filter P (take j l))) as Hql by (by eapply lookup_lt_Some).
  rewrite Hl, filter_app in Hp.
  destruct (decide (p < length (filter P (take j l)))) as [Hlt|Hge].
  - rewrite lookup_app_l in Hp by done. apply list_elem_of_lookup_2 in Hp.
    apply list_elem_of_filter in Hp as [_ Hp]. done.
  - apply elem_of_take. exists q. split; [|lia].
    rewrite Hl, filter_app. rewrite lookup_app_l by done. done.
Qed.

(** The energy traversal returns the first [size] ranked variables that
    were not visited, in ranking order: nothing visited, nothing twice, no
    unvisited variable passed over for one ranked after it, and every
    unvisited variable when fewer than [size] are returned. *)
Theorem energy_takes_top_unvisited bqm sample (ordered_priority : list (nat * Qc))
    (visited : gset nat) sz :
  NoDup (od_keys ordered_priority) ->
  ∃ l, _energy bqm sample ordered_priority visited sz = Ok l
       ∧ length l <= sz
       ∧ NoDup l
       ∧ l `sublist_of` od_keys ordered_priority
       ∧ (∀ v, v ∈ l -> v ∉ visited)
       ∧ (length l < sz ->
          ∀ v, v ∈ od_keys ordered_priority -> v ∉ visited -> v ∈ l)
       ∧ (∀ i j v w, od_keys ordered_priority !! i = Some v ->
                     od_keys ordered_priority !! j = Some w ->
                     i < j -> v ∉ visited -> w ∈ l -> v ∈ l).
Proof.
  intros Hnd. eexists. split; [reflexivity|].
  set (unvisited := filter (fun v => v ∉ visited) (od_keys ordered_priority)).
  assert (unvisited `sublist_of` od_keys ordered_priority) as Hsub
    by apply sublist_filter.
  split; [rewrite length_take; lia|].
  split. { eapply sublist_NoDup; [|apply sublist_take]. by eapply sublist_NoDup. }
  split. { etrans; [apply sublist_take|done]. }
  split. { intros v Hv. apply elem_of_take in Hv as (i & Hv & _).
           apply list_elem_of_lookup_2, list_elem_of_filter in Hv. tauto. }
  split.
  - rewrite length_take. intros Hlt v Hk Hv.
    rewrite take_ge by lia. by apply list_elem_of_filter.
  - intros i j v w Hi Hj Hij Hv Hw.
    by eapply (take_filter_closed (fun v => v ∉ visited)).
Qed.


Lemma _bfs_nodes_seeded : seeded_method _bfs_nodes.
Proof.
  intros graph source sz priority nodes Hsz. unfold _bfs_nodes.
  case_bool_decide; [lia|].
  destruct (islice _ _) as [found|]; simpl; [|done].
  intros [= <-]. left.
Qed.

Lemma pfs_while_grows fuel graph priority sz queue counter visited enqueued visited' :
  pfs_while fuel graph priority sz queue counter visited enqueued = Ok visited' ->
  visited ⊆ visited'.
Proof.
  revert queue counter visited enqueued.
  induction fuel as [|fuel IH]; intros queue counter visited enqueued; simpl;
    destruct (heappop queue) as [[e queue1]|]; try (by intros [= <-]).
  - case_bool_decide; [done|]. by intros [= <-].
  - case_bool_decide; [|by intros [= <-]].
    destruct (decide (e.2 ∈ visited)); [apply IH|].
    destruct (getitem graph e.2) as [nbrs|]; simpl; [|done].
    destruct (pfs_for _ _ _ _ _) as [st|]; simpl; [|done].
    intros Hw. apply IH in Hw. set_solver.
Qed.

Lemma _pfs_nodes_seeded : seeded_method _pfs_nodes.
Proof.
  intros graph source sz priority nodes Hsz. unfold _pfs_nodes, search_fuel.
  case_bool_decide; [lia|]. unfold push.
  destruct (priority source) as [p|]; [|done].
  cbn [mbind result_bind fst snd app]. cbn [pfs_while heappop foldl remove_entry].
  rewrite size_empty. rewrite bool_decide_eq_true_2 by lia. cbn [snd].
  destruct (decide (source ∈ ∅)) as [Hin|_]; [by apply not_elem_of_empty in Hin|].
  destruct (decide (_ = _)) as [_|Hne]; [|done].
  destruct (getitem graph source) as [nbrs|]; [|done]. cbn [mbind result_bind].
  destruct (pfs_for _ _ _ _ _) as [st|]; [|done]. cbn [mbind result_bind].
  destruct (pfs_while _ _ _ _ _ _ _ _) as [visited|] eqn:Hw; [|done].
  cbn [mbind result_bind]. intros [= <-].
  apply pfs_while_grows in Hw. apply elem_of_elements. set_solver.
Qed.

Lemma search_loop_grows method ordered_priority visited sz graph vars order vars' :
  search_loop method ordered_priority visited sz graph vars order = Ok vars' ->
  vars ⊆ vars'.
Proof.
  revert graph vars. induction order as [|source order IH]; intros graph vars; simpl.
  - destruct (_ && _); by intros [= <-].
  - destruct (_ && _); [|by intros [= <-]].
    destruct (_ || _); [apply IH|].
    destruct (method graph source _ _) as [nodes|]; simpl; [|done].
    intros Hs. apply IH in Hs. set_solver.
Qed.

(** The loop stops with [size] variables, or with every ranked variable
    that was not visited. *)
Lemma search_loop_covers method ordered_priority visited sz graph vars order vars' :
  bounded_method method -> seeded_method method ->
  size vars <= sz ->
  (∀ v, v ∈ order -> v ∉ visited -> v ∉ vars -> v ∈ graph.*1) ->
  search_loop method ordered_priority visited sz graph vars order = Ok vars' ->
  size vars' = sz ∨ ∀ v, v ∈ order -> v ∉ visited -> v ∈ vars'.
Proof.
  intros Hb Hsd. revert graph vars.
  induction order as [|source order IH]; intros graph vars Hsz Ho; simpl.
  { intros _. right. by intros v ?%elem_of_nil. }
  destruct (bool_decide (size vars < sz)) eqn:Hlt; simpl.
  2:{ intros [= <-]. left. apply bool_decide_eq_false_1 in Hlt. lia. }
  apply bool_decide_eq_true_1 in Hlt.
  destruct (bool_decide (length graph ≠ 0)) eqn:Hg; simpl.
  2:{ intros [= <-]. right. intros v Hv Hvis.
      apply bool_decide_eq_false_1 in Hg.
      destruct (decide (v ∈ vars)) as [|Hn]; [done|].
      specialize (Ho v Hv Hvis Hn). destruct graph; [by apply elem_of_nil in Ho|].
      destruct Hg. discriminate. }
  assert (∀ v, v ∈ order -> v ∉ visited -> v ∉ vars -> v ∈ graph.*1) as Ho'
    by (intros; apply Ho; [by right|done..]).
  destruct (bool_decide (source ∈ visited)) eqn:Hsv; simpl.
  { intros Hs. apply bool_decide_eq_true_1 in Hsv.
    destruct (IH _ _ Hsz Ho' Hs) as [|Hc]; [by left|right].
    intros v Hv Hvis. apply elem_of_cons in Hv as [->|Hv]; [done|auto]. }
  destruct (bool_decide (source ∈ vars)) eqn:Hsw; simpl.
  { intros Hs. apply bool_decide_eq_true_1 in Hsw.
    destruct (IH _ _ Hsz Ho' Hs) as [|Hc]; [by left|right].
    intros v Hv Hvis. apply elem_of_cons in Hv as [->|Hv]; [|auto].
    apply search_loop_grows in Hs. set_solver. }
  destruct (method graph source _ _) as [nodes|] eqn:Hn; simpl; [|done].
  intros Hs. assert (1 <= sz - size vars) as Hk by lia.
  pose proof (Hsd _ _ _ _ _ Hk Hn) as Hsrc.
  apply Hb in Hn as [Hlen _].
  destruct (IH (remove_nodes_from graph (list_to_set nodes))
              (list_to_set nodes ∪ vars)) with (3 := Hs) as [|Hc]; [| |by left|right].
  - etrans; [apply size_union_le|]. pose proof (size_list_to_set_le nodes). lia.
  - intros v Hv Hvis Hvars. apply nodes_remove_nodes.
    split; [apply Ho'; [done..|set_solver]|set_solver].
  - intros v Hv Hvis. apply elem_of_cons in Hv as [->|Hv]; [|auto].
    apply search_loop_grows in Hs. set_solver.
Qed.

(** When every ranked variable is a node of the problem graph, the graph
    search stops short of [size] variables only when it has selected every
    ranked variable that was not visited. *)
Theorem graph_search_fills_or_covers method bqm sample
    (ordered_priority : list (nat * Qc)) (visited : gset nat) sz l :
  method = _bfs_nodes ∨ method = _pfs_nodes ->
  (∀ v, v ∈ od_keys ordered_priority -> v ∈ (to_networkx_graph bqm).*1) ->
  _iterative_graph_search method bqm sample ordered_priority visited sz = Ok l ->
  length l = sz ∨ ∀ v, v ∈ od_keys ordered_priority -> v ∉ visited -> v ∈ l.
Proof.
  intros Hm Hk. unfold _iterative_graph_search.
  destruct (search_loop _ _ _ _ _ _ _) as [vars|] eqn:Hs; simpl; [|done].
  intros [= <-].
  assert (bounded_method method ∧ seeded_method method) as [Hb Hsd].
  { destruct Hm as [-> | ->];
      [split; [apply _bfs_nodes_bounded|apply _bfs_nodes_seeded]
      |split; [apply _pfs_nodes_bounded|apply _pfs_nodes_seeded]]. }
  apply search_loop_covers in Hs as [Hs|Hs]; [by left| |done|done| |].
  - right. intros v Hv Hvis. apply elem_of_elements. auto.
  - rewrite size_empty. lia.
  - intros v Hv Hvis _. apply nodes_remove_nodes. auto.
Qed.

(** With room for one variable at least, the graph search selects the
    first ranked variable that was not visited. *)
Theorem graph_search_takes_top_unvisited method bqm sample
    (ordered_priority : list (nat * Qc)) (visited : gset nat) sz l pre s post :
  method = _bfs_nodes ∨ method = _pfs_nodes ->
  od_keys ordered_priority = pre ++ s :: post ->
  (∀ v, v ∈ pre -> v ∈ visited) -> s ∉ visited ->
  s ∈ (to_networkx_graph bqm).*1 ->
  1 <= sz ->
  _iterative_graph_search method bqm sample ordered_priority visited sz = Ok l ->
  s ∈ l.
Proof.
  intros Hm Hk Hpre Hs Hnode Hsz. unfold _iterative_graph_search. rewrite Hk.
  clear Hk.
  destruct (search_loop _ _ _ _ _ _ _) as [vars|] eqn:Hl; simpl; [|done].
  intros [= <-]. apply elem_of_elements.
  assert (seeded_method method) as Hsd.
  { destruct Hm as [-> | ->]; [apply _bfs_nodes_seeded|apply _pfs_nodes_seeded]. }
  assert (s ∈ (remove_nodes_from (to_networkx_graph bqm) visited).*1) as Hin
    by (by apply nodes_remove_nodes).
  revert Hin Hl. generalize (remove_nodes_from (to_networkx_graph bqm) visited) as graph.
  intros graph Hin.
  induction pre as [|v pre IH]; cbn [app search_loop].
  - rewrite size_empty. rewrite bool_decide_eq_true_2 by lia.
    rewrite bool_decide_eq_true_2.
    2:{ destruct graph; [by apply elem_of_nil in Hin|done]. }
    rewrite (bool_decide_eq_false_2 (s ∈ visited)) by done.
    rewrite (bool_decide_eq_false_2 (s ∈ ∅)) by set_solver. cbn [andb orb].
    destruct (method graph s _ _) as [nodes|] eqn:Hn; [|done]. cbn [mbind result_bind].
    intros Hl. apply search_loop_grows in Hl.
    apply Hsd in Hn; [|lia]. set_solver.
  - rewrite size_empty. rewrite bool_decide_eq_true_2 by lia.
    rewrite bool_decide_eq_true_2.
    2:{ destruct graph; [by apply elem_of_nil in Hin|done]. }
    rewrite (bool_decide_eq_true_2 (v ∈ visited)) by (apply Hpre; left).
    cbn [andb orb]. apply IH. intros; apply Hpre. by right.
Qed.


(** The children taken are the ones not seen yet, each once, and they
    are seen afterwards. *)
Lemma bfs_children_spec cs (seen : gset nat) :
  NoDup (bfs_children cs seen).1
  ∧ (∀ c, c ∈ (bfs_children cs seen).1 ↔ c ∈ cs ∧ c ∉ seen)
  ∧ (bfs_children cs seen).2 = list_to_set (bfs_children cs seen).1 ∪ seen.
Proof.
  revert seen. induction cs as [|c cs IH]; intros seen; simpl.
  { split; [constructor|]. split; [|set_solver]. intros c. set_solver. }
  destruct (decide (c ∈ seen)) as [Hc|Hc].
  - destruct (IH seen) as (Hnd & Hin & Hseen). split; [done|]. split; [|done].
    intros x. rewrite Hin. set_solver.
  - destruct (IH ({[c]} ∪ seen)) as (Hnd & Hin & Hseen). cbn [fst snd].
    split. { apply NoDup_cons. split; [|done]. rewrite Hin. set_solver. }
    split. { intros x. rewrite elem_of_cons, Hin. 
             destruct (decide (x = c)) as [->|]; set_solver. }
    rewrite Hseen. set_solver.
Qed.

(** The edges of a breadth-first search form a tree: every target is
    new, the source of an edge is in the queue or is the target of an
    earlier edge, and no edge of the graph leaves the nodes that were
    seen or reached. *)
Lemma bfs_loop_tree fuel g queue (seen : gset nat) edges :
  bfs_loop fuel g queue seen = Ok edges ->
  NoDup edges.*2
  ∧ (∀ v, v ∈ edges.*2 -> v ∉ seen)
  ∧ (∀ i e, edges !! i = Some e ->
       adjacent g e.1 e.2 ∧ (e.1 ∈ queue ∨ e.1 ∈ take i edges.*2))
  ∧ (∀ u v, u ∈ queue ∨ u ∈ edges.*2 -> adjacent g u v ->
       v ∈ seen ∨ v ∈ edges.*2).
Proof.
  revert queue seen edges. induction fuel as [|fuel IH]; intros queue seen edges;
    destruct queue as [|parent rest]; simpl.
  1, 3: intros [= <-]; split; [constructor|]; split; [set_solver|];
        split; [done|]; intros u v [Hu|Hu]; set_solver.
  1: done.
  destruct (bfs_children_spec (default [] (od_get g parent)) seen)
    as (Hcnd & Hcin & Hcseen).
  set (r := bfs_children (default [] (od_get g parent)) seen) in *.
  destruct (bfs_loop fuel g _ _) as [es|] eqn:Hloop; simpl; [|done].
  intros [= <-]. apply IH in Hloop as (Hnd & Hfresh & Hpar & Hclosed).
  assert ((((fun c => (parent, c)) <$> r.1) ++ es).*2 = r.1 ++ es.*2) as Htg.
  { rewrite fmap_app. f_equal. rewrite <- list_fmap_compose.
    clear. induction r.1 as [|c cs IHc]; [done|]. simpl. by f_equal. }
  rewrite Htg. split.
  { apply NoDup_app. split; [done|]. split; [|done].
    intros x Hx Hx'. apply Hfresh in Hx'. rewrite Hcseen in Hx'. set_solver. }
  split.
  { intros v Hv. apply elem_of_app in Hv as [Hv|Hv].
    - apply Hcin in Hv. tauto.
    - apply Hfresh in Hv. rewrite Hcseen in Hv. set_solver. }
  split.
  - intros i e Hi.
    destruct (decide (i < length r.1)) as [Hlt|Hge].
    + rewrite lookup_app_l in Hi by (by rewrite length_fmap).
      rewrite list_lookup_fmap in Hi.
      destruct (r.1 !! i) as [c|] eqn:Hc; [|done]. injection Hi as <-.
      cbn [fst snd]. split; [|left; left].
      apply list_elem_of_lookup_2, Hcin in Hc as [Hc _].
      destruct (od_get g parent) as [ns|] eqn:Hg; [|by apply elem_of_nil in Hc].
      by exists ns.
    + rewrite lookup_app_r in Hi by (rewrite length_fmap; lia).
      rewrite length_fmap in Hi.
      apply Hpar in Hi as [Hadj Hsrc]. split; [done|].
      rewrite take_app_ge by lia.
      destruct Hsrc as [Hsrc|Hsrc]; [|right; apply elem_of_app; by right].
      apply elem_of_app in Hsrc as [Hsrc|Hsrc]; [left; by right|].
      right. apply elem_of_app. by left.
  - intros u v Hu Hadj.
    assert (u = parent ∨ u ∈ rest ++ r.1 ∨ u ∈ es.*2) as [->|Hu'].
    { destruct Hu as [Hu|Hu].
      - apply elem_of_cons in Hu as [->|Hu]; [by left|].
        right. left. apply elem_of_app. by left.
      - apply elem_of_app in Hu as [Hu|Hu]; [|by right; right].
        right. left. apply elem_of_app. by right. }
    + destruct Hadj as (ns & Hg & Hv). rewrite Hg in Hcin. cbn [default] in Hcin.
      destruct (decide (v ∈ seen)) as [|Hn]; [by left|].
      right. apply elem_of_app. left. apply Hcin. done.
    + destruct (Hclosed u v Hu' Hadj) as [Hv|Hv].
      * rewrite Hcseen in Hv. apply elem_of_union in Hv as [Hv|Hv]; [|by left].
        right. apply elem_of_app. left. by apply elem_of_list_to_set in Hv.
      * right. apply elem_of_app. by right.
Qed.

Lemma bfs_children_fresh cs (seen : gset nat) :
  NoDup cs -> (∀ c, c ∈ cs -> c ∉ seen) -> (bfs_children cs seen).1 = cs.
Proof.
  revert seen. induction cs as [|c cs IH]; intros seen Hnd Hs; simpl; [done|].
  apply NoDup_cons in Hnd as [Hc Hnd].
  rewrite decide_False by (apply Hs; left). simpl. f_equal.
  apply IH; [done|]. intros x Hx. specialize (Hs x ltac:(by right)). set_solver.
Qed.

(** Breadth first: the source, then its neighbours in adjacency order,
    then the nodes farther away, cut after [size - 1] nodes beyond the
    source.  The nodes farther away are new, each is adjacent to a
    neighbour or to a node before it, and with them every node is listed
    that an edge leads to from a listed one. *)
Theorem bfs_takes_neighbours_first graph source sz priority nbrs :
  od_get graph source = Some nbrs -> NoDup nbrs -> source ∉ nbrs ->
  1 <= sz ->
  ∃ farther,
    _bfs_nodes graph source sz priority
    = Ok (source :: take (sz - 1) (nbrs ++ farther))
    ∧ NoDup (source :: nbrs ++ farther)
    ∧ (∀ i v, farther !! i = Some v ->
         ∃ u, u ∈ nbrs ++ take i farther ∧ adjacent graph u v)
    ∧ (∀ u v, u ∈ source :: nbrs ++ farther -> adjacent graph u v ->
         v ∈ source :: nbrs ++ farther).
Proof.
  intros Hg Hnd Hs Hsz.
  assert (source ∈ graph.*1) as Hin.
  { destruct (decide (source ∈ graph.*1)) as [|Hn]; [done|].
    apply od_get_None in Hn. congruence. }
  pose proof (bfs_edges_total graph source Hin) as Hok.
  unfold _bfs_nodes. rewrite bool_decide_eq_false_2 by lia.
  unfold bfs_edges, neighbors, search_fuel in *. rewrite Hg in *.
  cbn [mbind result_bind bfs_loop] in *. rewrite Hg in *. cbn [default] in *.
  destruct (bfs_children_spec nbrs {[source]}) as (_ & _ & Hseen).
  rewrite bfs_children_fresh in * by (done || set_solver).
  destruct (bfs_loop _ _ _ _) as [edges|] eqn:Hloop; [|done].
  apply bfs_loop_tree in Hloop as (Hend & Hfresh & Hpar & Hclosed).
  change (id nbrs) with nbrs in *.
  rewrite Hseen in Hfresh, Hclosed. cbn [app] in Hpar, Hclosed.
  exists (edges.*2). split.
  { cbn [mbind result_bind]. unfold islice.
    destruct (sz - 1) as [|k]; [done|]. simpl.
    do 3 f_equal. rewrite fmap_app. f_equal. clear.
    induction nbrs as [|c cs IH]; [done|]. simpl. by f_equal. }
  split.
  { apply NoDup_cons. split.
    - intros Hx. apply elem_of_app in Hx as [Hx|Hx]; [done|].
      apply Hfresh in Hx. set_solver.
    - apply NoDup_app. split; [done|]. split; [|done].
      intros x Hx Hx'. apply Hfresh in Hx'. set_solver. }
  split.
  - intros i v Hi. rewrite list_lookup_fmap in Hi.
    destruct (edges !! i) as [e|] eqn:He; [|done]. injection Hi as <-.
    apply Hpar in He as [Hadj Hsrc]. exists e.1. split; [|done].
    apply elem_of_app. tauto.
  - intros u v Hu Hadj. apply elem_of_cons in Hu as [->|Hu].
    + destruct Hadj as (ns & Hg' & Hv). rewrite Hg in Hg'. injection Hg' as <-.
      right. apply elem_of_app. by left.
    + apply elem_of_app in Hu.
      destruct (Hclosed u v Hu Hadj) as [Hv|Hv].
      * apply elem_of_union in Hv as [Hv|Hv].
        -- right. apply elem_of_app. left. by apply elem_of_list_to_set in Hv.
        -- apply elem_of_singleton in Hv as ->. left.
      * right. apply elem_of_app. by right.
Qed.


Lemma entry_lt_spec a b : entry_lt a b = true ↔ before_entry a b.
Proof.
  unfold entry_lt, before_entry.
  rewrite orb_true_iff, andb_true_iff, !bool_decide_eq_true. done.
Qed.

Lemma before_entry_irrefl a : ¬ before_entry a a.
Proof.
  intros [Hlt|[_ Hlt]]; [|lia]. by apply (Qcle_not_lt _ _ (Qcle_refl a.1.1)).
Qed.

Lemma before_entry_trans a b c :
  before_entry a b -> before_entry b c -> before_entry a c.
Proof.
  intros [Hab|[Hab Hab']] [Hbc|[Hbc Hbc']].
  - left. by eapply Qclt_trans.
  - left. by rewrite <- Hbc.
  - left. by rewrite Hab.
  - right. split; [congruence|lia].
Qed.

Lemma before_entry_between x e m :
  ¬ before_entry x e -> before_entry x m -> before_entry e m.
Proof.
  unfold before_entry. intros Hxe Hxm.
  assert (e.1.1 <= x.1.1)%Qc as Hle by (apply Qcnot_lt_le; tauto).
  apply Qcle_lt_or_eq in Hle as [Hlt|Heq].
  - left. destruct Hxm as [Hxm|[Hxm _]]; [by eapply Qclt_trans|by rewrite <- Hxm].
  - assert (e.1.2 <= x.1.2) as Hc.
    { destruct (decide (e.1.2 <= x.1.2)); [done|]. destruct Hxe. right.
      split; [done|lia]. }
    destruct Hxm as [Hxm|[Hxm Hxm']]; [left; by rewrite Heq|right].
    split; [congruence|lia].
Qed.

Lemma least_entry_least (e : entry) q x :
  x ∈ e :: q ->
  ¬ before_entry x (foldl (fun m x => if entry_lt x m then x else m) e q).
Proof.
  revert e x. induction q as [|y q IH]; intros e x Hx; simpl.
  - apply list_elem_of_singleton in Hx as ->. apply before_entry_irrefl.
  - set (e' := if entry_lt y e then y else e).
    assert (¬ before_entry e e' ∧ ¬ before_entry y e') as [He Hy].
    { unfold e'. destruct (entry_lt y e) eqn:Hlt.
      - apply entry_lt_spec in Hlt. split; [|apply before_entry_irrefl].
        intros Hey. eapply before_entry_irrefl, before_entry_trans; eauto.
      - split; [apply before_entry_irrefl|]. intros Hye.
        apply entry_lt_spec in Hye. congruence. }
    pose proof (IH e' e' ltac:(left)) as Hm. fold e'.
    apply elem_of_cons in Hx as [->|Hx].
    { intros Hxm. by apply Hm, (before_entry_between e). }
    apply elem_of_cons in Hx as [->|Hx].
    { intros Hxm. by apply Hm, (before_entry_between y). }
    apply IH. by right.
Qed.

Lemma pfs_for_entries priority nbrs queue counter (enqueued : gset nat) st :
  NoDup nbrs -> (∀ u, u ∈ nbrs -> u ∉ enqueued) ->
  pfs_for priority nbrs queue counter enqueued = Ok st ->
  st.1.1 = queue ++ entries_of priority counter nbrs
  ∧ ∀ u, u ∈ nbrs -> is_Some (priority u).
Proof.
  revert queue counter enqueued.
  induction nbrs as [|nb nbrs IH]; intros queue counter enqueued Hnd Hfresh; simpl.
  - intros [= <-]. simpl. split; [by rewrite app_nil_r|]. by intros u ?%elem_of_nil.
  - apply NoDup_cons in Hnd as [Hnb Hnd].
    rewrite decide_False by (apply Hfresh; left).
    unfold push. destruct (priority nb) as [p|] eqn:Hp; simpl; [|done].
    intros Hf. apply IH in Hf as [Hq Hsome]; [|done|].
    + split; [by rewrite Hq, <- (assoc_L (++))|].
      intros u Hu. apply elem_of_cons in Hu as [->|Hu]; [by rewrite Hp|auto].
    + intros u Hu. specialize (Hfresh u ltac:(by right)). set_solver.
Qed.

Lemma entries_of_lookup priority c nbrs j :
  entries_of priority c nbrs !! j
  = (fun u => ((- default 0 (priority u))%Qc, c + j, u)) <$> nbrs !! j.
Proof.
  revert c j. induction nbrs as [|u nbrs IH]; intros c j; [done|].
  destruct j as [|j]; simpl; [by rewrite Nat.add_0_r|].
  rewrite IH. by replace (S c + j) with (c + S j) by lia.
Qed.

Lemma pfs_while_full fuel graph priority sz queue counter (visited enqueued : gset nat) :
  sz <= size visited ->
  pfs_while fuel graph priority sz queue counter visited enqueued = Ok visited.
Proof.
  intros Hsz. destruct fuel; simpl; destruct (heappop queue) as [[e q]|]; try done;
    by rewrite bool_decide_eq_false_2 by lia.
Qed.

(** Priority first with room for two: besides the source, the neighbour of
    the highest priority is taken, the earliest in adjacency order among
    equals. *)
Theorem pfs_takes_best_neighbour graph source priority nbrs l :
  od_get graph source = Some nbrs -> NoDup nbrs -> source ∉ nbrs ->
  _pfs_nodes graph source 2 priority = Ok l ->
  (nbrs = [] ∧ l = [source])
  ∨ ∃ i best pb,
      nbrs !! i = Some best ∧ priority best = Some pb
      ∧ (list_to_set l : gset nat) = {[source; best]}
      ∧ ∀ j u, nbrs !! j = Some u ->
          ∃ pu, priority u = Some pu ∧ (pu <= pb)%Qc ∧ (j < i -> (pu < pb)%Qc).
Proof.
  intros Hg Hnd Hs. unfold _pfs_nodes, search_fuel.
  rewrite bool_decide_eq_false_2 by lia. unfold push.
  destruct (priority source) as [ps|]; [|done].
  cbn [mbind result_bind fst snd app]. cbn [pfs_while heappop foldl remove_entry].
  rewrite size_empty. rewrite bool_decide_eq_true_2 by lia. cbn [snd].
  destruct (decide (source ∈ ∅)) as [Hin|_]; [by apply not_elem_of_empty in Hin|].
  destruct (decide (_ = _)) as [_|Hne]; [|done].
  unfold getitem. rewrite Hg. cbn [mbind result_bind].
  destruct (pfs_for _ _ _ _ _) as [st|] eqn:Hfor; [|done]. cbn [mbind result_bind].
  apply pfs_for_entries in Hfor as [Hq Hsome]; [|done|set_solver].
  rewrite app_nil_l in Hq. rewrite Hq.
  assert (size ({[source]} ∪ ∅ : gset nat) = 1) as Hone
    by (by rewrite union_empty_r_L, size_singleton).
  destruct (decide (nbrs = [])) as [->|Hnil].
  { cbn [entries_of]. destruct (size (targets graph)); simpl;
      intros [= <-]; left; split; [done| |done|];
      by rewrite union_empty_r_L, elements_singleton. }
  destruct (entries_of priority 1 nbrs) as [|e0 queue'] eqn:Hqueue.
  { by destruct nbrs. }
  set (m := foldl (fun m x => if entry_lt x m then x else m) e0 queue').
  assert (heappop (e0 :: queue') = Some (m, remove_entry m (e0 :: queue'))) as Hpop
    by done.
  pose proof (least_entry_elem e0 queue') as Hm. fold m in Hm.
  apply list_elem_of_lookup in Hm as [i Hi].
  rewrite <- Hqueue, entries_of_lookup in Hi.
  destruct (nbrs !! i) as [best|] eqn:Hbest; [|done]. simpl in Hi.
  injection Hi as Hmeq.
  destruct (Hsome best) as [pb Hpb]; [by eapply list_elem_of_lookup_2|].
  assert (best ≠ source) as Hbs.
  { intros ->. apply Hs. by eapply list_elem_of_lookup_2. }
  intros Hres. right. exists i, best, pb. split; [done|]. split; [done|].
  split.
  - destruct (size (targets graph)) as [|fuel].
    { cbn [pfs_while] in Hres. rewrite Hpop in Hres.
      rewrite bool_decide_eq_true_2 in Hres by lia. done. }
    cbn [pfs_while] in Hres. rewrite Hpop, bool_decide_eq_true_2 in Hres by lia.
    rewrite <- Hmeq in Hres. cbn [snd] in Hres.
    rewrite decide_False in Hres by set_solver.
    destruct (getitem graph best) as [nb2|]; [|done]. cbn [mbind result_bind] in Hres.
    destruct (pfs_for _ _ _ _ _) as [st2|]; [|done]. cbn [mbind result_bind] in Hres.
    rewrite pfs_while_full in Hres.
    2:{ rewrite size_union by set_solver. rewrite size_singleton, Hone. lia. }
    cbn [mbind result_bind] in Hres. injection Hres as <-.
    rewrite list_to_set_elements_L. set_solver.
  - intros j u Hj. destruct (Hsome u) as [pu Hpu]; [by eapply list_elem_of_lookup_2|].
    exists pu. split; [done|].
    assert (((- pu)%Qc, 1 + j, u) ∈ e0 :: queue') as Hin.
    { rewrite <- Hqueue. apply list_elem_of_lookup. exists j.
      rewrite entries_of_lookup, Hj. simpl. by rewrite Hpu. }
    apply least_entry_least in Hin. fold m in Hin. rewrite <- Hmeq, Hpb in Hin.
    unfold before_entry in Hin. cbn [fst snd default] in Hin.
    assert (¬ (- pu < - pb)%Qc) as Hnlt by tauto.
    assert (pu <= pb)%Qc as Hle.
    { apply Qcnot_lt_le. intros Hlt. apply Hnlt.
      apply Qclt_minus_iff. apply Qclt_minus_iff in Hlt.
      by replace (- pb + - - pu)%Qc with (pu + - pb)%Qc by ring. }
    split; [done|]. intros Hji.
    apply Qcle_lt_or_eq in Hle as [Hlt|Heq]; [done|]. subst pu.
    destruct Hin. right. split; [done|lia].
Qed.
End traversals.

Lemma energy_takes_top_unvisited_witness :
  ∃ l, EnergyImpactDecomposer._energy (Inputs.complete [0; 1; 2; 3])
         (Inputs.zeros [0; 1; 2; 3])
         [(2, 1%Qc); (0, 1%Qc); (1, 0%Qc); (3, 0%Qc)] {[0]} 2 = Ok l
       ∧ length l <= 2 ∧ ∀ v, v ∈ l -> v ∉ ({[0]} : gset nat).
Proof.
  destruct (energy_takes_top_unvisited (Inputs.complete [0; 1; 2; 3])
              (Inputs.zeros [0; 1; 2; 3])
              [(2, 1%Qc); (0, 1%Qc); (1, 0%Qc); (3, 0%Qc)] {[0]} 2)
    as (l & Hl & Hlen & _ & _ & Hv & _).
  - apply (bool_decide_unpack _). vm_compute. reflexivity.
  - exists l. split; [exact Hl|]. split; [exact Hlen|exact Hv].
Defined.

Lemma graph_search_fills_or_covers_witness :
  let order := [(2, 1%Qc); (0, 1%Qc); (1, 0%Qc); (3, 0%Qc)] in
  ∃ l, EnergyImpactDecomposer._iterative_graph_search
         EnergyImpactDecomposer._bfs_nodes (Inputs.complete [0; 1; 2; 3])
         (Inputs.zeros [0; 1; 2; 3]) order {[0]} 2 = Ok l
       ∧ (length l = 2
          ∨ ∀ v, v ∈ od_keys order -> v ∉ ({[0]} : gset nat) -> v ∈ l).
Proof.
  intros order. eexists. split; [vm_compute; reflexivity|].
  apply (graph_search_fills_or_covers EnergyImpactDecomposer._bfs_nodes
           (Inputs.complete [0; 1; 2; 3]) (Inputs.zeros [0; 1; 2; 3])
           order {[0]} 2).
  - left. reflexivity.
  - intros v. change (od_keys order) with [2; 0; 1; 3].
    change ((to_networkx_graph (Inputs.complete [0; 1; 2; 3])).*1)
      with [0; 1; 2; 3].
    rewrite !elem_of_cons, !elem_of_nil. tauto.
  - vm_compute. reflexivity.
Defined.

Lemma graph_search_takes_top_unvisited_witness :
  ∃ l, EnergyImpactDecomposer._iterative_graph_search
         EnergyImpactDecomposer._pfs_nodes (Inputs.complete [0; 1; 2; 3])
         (Inputs.zeros [0; 1; 2; 3])
         [(2, 1%Qc); (0, 1%Qc); (1, 0%Qc); (3, 0%Qc)] {[2]} 2 = Ok l
       ∧ 0 ∈ l.
Proof.
  eexists. split; [vm_compute; reflexivity|].
  apply (graph_search_takes_top_unvisited EnergyImpactDecomposer._pfs_nodes
           (Inputs.complete [0; 1; 2; 3]) (Inputs.zeros [0; 1; 2; 3])
           [(2, 1%Qc); (0, 1%Qc); (1, 0%Qc); (3, 0%Qc)] {[2]} 2 _
           [2] 0 [1; 3]).
  - right. reflexivity.
  - reflexivity.
  - intros v Hv. apply list_elem_of_singleton in Hv. rewrite Hv.
    apply elem_of_singleton. reflexivity.
  - apply (bool_decide_unpack _). vm_compute. reflexivity.
  - change ((to_networkx_graph (Inputs.complete [0; 1; 2; 3])).*1)
      with [0; 1; 2; 3]. left.
  - lia.
  - vm_compute. reflexivity.
Defined.

Lemma bfs_takes_neighbours_first_witness :
  ∃ farther,
    EnergyImpactDecomposer._bfs_nodes
      (to_networkx_graph (Inputs.path [0; 1; 2; 3])) 1 3 (fun _ => None)
    = Ok (1 :: take 2 ([0; 2] ++ farther))
    ∧ NoDup (1 :: [0; 2] ++ farther)
    ∧ ∀ u v, u ∈ 1 :: [0; 2] ++ farther ->
        adjacent (to_networkx_graph (Inputs.path [0; 1; 2; 3])) u v ->
        v ∈ 1 :: [0; 2] ++ farther.
Proof.
  destruct (bfs_takes_neighbours_first
              (to_networkx_graph (Inputs.path [0; 1; 2; 3])) 1 3
              (fun _ => None) [0; 2]) as (farther & Hr & Hnd & _ & Hc).
  - vm_compute. reflexivity.
  - apply (bool_decide_unpack _). vm_compute. reflexivity.
  - apply (bool_decide_unpack _). vm_compute. reflexivity.
  - lia.
  - exists farther. split; [exact Hr|]. split; [exact Hnd|exact Hc].
Defined.

Lemma pfs_takes_best_neighbour_witness :
  let priority := fun v : nat => Some (Qc_of_Z (Z.of_nat (v `mod` 3))) in
  ∃ l, EnergyImpactDecomposer._pfs_nodes
         (to_networkx_graph (Inputs.complete [0; 1; 2; 3])) 0 2 priority = Ok l
       ∧ (([1; 2; 3] = [] ∧ l = [0])
          ∨ ∃ i best pb,
              [1; 2; 3] !! i = Some best ∧ priority best = Some pb
              ∧ (list_to_set l : gset nat) = {[0; best]}
              ∧ ∀ j u, [1; 2; 3] !! j = Some u ->
                  ∃ pu, priority u = Some pu ∧ (pu <= pb)%Qc
                        ∧ (j < i -> (pu < pb)%Qc)).
Proof.
  intros priority. eexists. split; [vm_compute; reflexivity|].
  apply (pfs_takes_best_neighbour
           (to_networkx_graph (Inputs.complete [0; 1; 2; 3])) 0 priority
           [1; 2; 3]).
  - vm_compute. reflexivity.
  - apply (bool_decide_unpack _). vm_compute. reflexivity.
  - apply (bool_decide_unpack _). vm_compute. reflexivity.
  - vm_compute. reflexivity.
Defined.

(** ** More on [EnergyImpactDecomposer.next] *)

Section energy_impact_more.
Context `{HybridUtils}.
Import EnergyImpactDecomposer.

Lemma set_cache_same self priority prev :
  _variable_priority self = priority -> _prev_sample self = prev ->
  set_cache self priority prev = self.
Proof. destruct self. simpl. by intros -> ->. Qed.

Lemma prepare_settled self state sample :
  bqm_differs (problem state) (_rolling_bqm (prepare self state sample)) = false.
Proof.
  rewrite prepare_rolling_bqm.
  destruct (bqm_differs (problem state) (_rolling_bqm self)) eqn:Hd;
    [apply bqm_differs_same|done].
Qed.

Lemma prepare_idempotent self state sample :
  let p := prepare self state sample in prepare p state sample = p.
Proof.
  intros p. pose proof (prepare_prev_sample self state sample) as Hprev.
  pose proof (prepare_priority_empty self state sample) as Hempty.
  pose proof (prepare_settled self state sample) as Hset.
  destruct (prepare_config self state sample) as (_ & Hmg & _).
  fold p in Hprev, Hempty, Hset, Hmg.
  unfold prepare at 1. rewrite Hset, Hprev, sample_differs_same. cbn [orb].
  destruct (bool_decide (_variable_priority p = [])) eqn:Hd; [|done].
  apply bool_decide_eq_true_1 in Hd.
  rewrite <- Hmg, (Hempty Hd). by apply set_cache_same.
Qed.

(** With rolling disabled a call leaves the decomposer in a state that a
    second call on the same state does not change, and the second call
    gives what the first gave. *)
Theorem next_repeats_without_rolling self state :
  rolling self = false ->
  next (next self state).1.1 state = next self state.
Proof.
  intros Hr. unfold next at 2 3.
  destruct (best_sample _ _) as [sample|e] eqn:Hb.
  2:{ cbn [fst]. unfold next. by rewrite Hb. }
  destruct (prepare_config self state sample) as (Hsz & _ & Hr' & _).
  set (p := prepare self state sample) in *.
  rewrite <- Hr', Hr. cbn [andb].
  assert ((select p state sample
             (if bool_decide (len (problem state) < self_size self)
              then [LogAdapting] else [])).1.1 = p) as Hsel.
  { unfold select. destruct (traverse p _ _ _ _ _); [|done]. cbn [fst].
    by rewrite <- Hr', Hr. }
  rewrite Hsel. unfold next. rewrite Hb.
  pose proof (prepare_idempotent self state sample) as Hid. fold p in Hid.
  cbn zeta in Hid. rewrite Hid, <- Hr', Hr. cbn [andb]. by rewrite <- Hsz.
Qed.

(** The built-in traversals select nothing that was visited. *)
Lemma traversers_avoid_visited name tr bqm sample ordered_priority
    (visited : gset nat) sz vars :
  traversers name = Some tr ->
  tr bqm sample ordered_priority visited sz = Ok vars ->
  ∀ v, v ∈ vars -> v ∉ visited.
Proof.
  unfold traversers. intros Hn Htr.
  repeat case_decide; simplify_eq.
  - unfold _energy in Htr. injection Htr as <-. intros v Hv.
    apply elem_of_take in Hv as (i & Hv & _).
    apply list_elem_of_lookup_2, list_elem_of_filter in Hv. tauto.
  - apply _iterative_graph_search_sound in Htr as (_ & _ & Hd);
      [done|apply _bfs_nodes_bounded].
  - apply _iterative_graph_search_sound in Htr as (_ & _ & Hd);
      [done|apply _pfs_nodes_bounded].
Qed.

Lemma select_log self state sample lg n vars :
  (∀ n vars, LogSelected n vars ∉ lg) ->
  LogSelected n vars ∈ (select self state sample lg).1.2 ->
  traverse self (problem state) sample (_variable_priority self)
    (_unrolled_vars self) (self_size self) = Ok vars
  ∧ n = length vars
  ∧ (select self state sample lg).1.2 = lg ++ [LogSelected n vars]
  ∧ _unrolled_vars (select self state sample lg).1.1
    = (if rolling self then list_to_set vars ∪ _unrolled_vars self
       else _unrolled_vars self)
  ∧ _rolling_bqm (select self state sample lg).1.1 = _rolling_bqm self.
Proof.
  intros Hlg. unfold select.
  destruct (traverse self _ _ _ _ _) as [next_vars|]; cbn [fst snd].
  - intros Hin. apply elem_of_app in Hin as [Hin|Hin]; [by apply Hlg in Hin|].
    apply list_elem_of_singleton in Hin. injection Hin as -> ->.
    repeat split; by destruct (rolling self).
  - intros Hin. by apply Hlg in Hin.
Qed.

(** With rolling enabled, what a call of [next] selects enters the visited
    set; a call that neither rewinds nor meets a new problem selects only
    variables that were not visited, and adds them to the visited set. *)
Theorem rolling_selects_unvisited self state name n vars :
  traversers name = Some (traverse self) -> rolling self = true ->
  LogSelected n vars ∈ (next self state).1.2 ->
  n = length vars
  ∧ (∀ v, v ∈ vars -> v ∈ _unrolled_vars (next self state).1.1)
  ∧ ((∀ m, LogRollingReset m ∉ (next self state).1.2) ->
     bqm_differs (problem state) (_rolling_bqm self) = false ->
     (∀ v, v ∈ vars -> v ∉ _unrolled_vars self)
     ∧ _unrolled_vars (next self state).1.1
       = list_to_set vars ∪ _unrolled_vars self).
Proof.
  intros Hname Hr. unfold next.
  destruct (best_sample _ _) as [sample|e]; [|by intros ?%elem_of_nil].
  destruct (prepare_config self state sample) as (Hsz & _ & Hr' & _ & _ & Htr).
  pose proof (prepare_unrolled self state sample) as Hu.
  set (p := prepare self state sample) in *.
  set (lg0 := if bool_decide _ then _ else _).
  assert (∀ n vars, LogSelected n vars ∉ lg0) as Hlg0.
  { intros ??. unfold lg0. destruct (bool_decide _); set_solver. }
  rewrite <- Hr', Hr. cbn [andb].
  destruct (history_reached p (problem state)).
  - destruct (negb _).
    { cbn [fst snd]. intros Hin. apply elem_of_app in Hin as [Hin|Hin];
        [by apply Hlg0 in Hin|set_solver]. }
    intros Hin. apply select_log in Hin as (Htrav & -> & Hlog & Hun & _).
    2:{ intros ?? Hin'. apply elem_of_app in Hin' as [Hin'|Hin'];
          [by apply Hlg0 in Hin'|set_solver]. }
    split; [done|]. rewrite Hun.
    change (rolling (_rewind_rolling p state)) with (rolling p).
    rewrite <- Hr', Hr. split; [set_solver|].
    intros Hno. destruct (Hno (size (_unrolled_vars p))). rewrite Hlog. set_solver.
  - intros Hin. apply select_log in Hin as (Htrav & -> & Hlog & Hun & _); [|done].
    split; [done|]. rewrite Hun, <- Hr', Hr. split; [set_solver|].
    intros _ Hsame. rewrite Hu, Hsame. split; [|done].
    rewrite Hu, Hsame, <- Htr in Htrav.
    by eapply traversers_avoid_visited.
Qed.

(** A call of [next] on a problem that is not the cached one forgets what
    was visited: afterwards the visited set holds nothing but what this
    call selected, and the cached problem is the new one. *)
Theorem new_problem_forgets_visited self state :
  bqm_differs (problem state) (_rolling_bqm self) = true ->
  is_ok (best_sample (problem state) (samples state)) = true ->
  _rolling_bqm (next self state).1.1 = Some (problem state)
  ∧ ∀ v, v ∈ _unrolled_vars (next self state).1.1 ->
         ∃ n vars, LogSelected n vars ∈ (next self state).1.2 ∧ v ∈ vars.
Proof.
  intros Hd Hb. unfold next.
  destruct (best_sample _ _) as [sample|e]; [|done].
  pose proof (prepare_unrolled self state sample) as Hu.
  pose proof (prepare_rolling_bqm self state sample) as Hq.
  rewrite Hd in Hu, Hq.
  set (p := prepare self state sample) in *.
  set (lg0 := if bool_decide _ then _ else _).
  assert (∀ q lg,
    _unrolled_vars q = ∅ -> _rolling_bqm q = Some (problem state) ->
    _rolling_bqm (select q state sample lg).1.1 = Some (problem state)
    ∧ ∀ v, v ∈ _unrolled_vars (select q state sample lg).1.1 ->
           ∃ n vars, LogSelected n vars ∈ (select q state sample lg).1.2 ∧ v ∈ vars)
    as Hsel.
  { intros q lg Hqu Hqb. unfold select.
    destruct (traverse q _ _ _ _ _) as [vars|]; cbn [fst snd].
    - split; [by destruct (rolling q)|]. intros v Hv.
      exists (length vars), vars. split; [set_solver|].
      destruct (rolling q); cbn in Hv; rewrite Hqu in Hv; set_solver.
    - split; [done|]. intros v Hv. rewrite Hqu in Hv. set_solver. }
  destruct (rolling p && history_reached p (problem state)).
  - destruct (negb _); [|by apply Hsel].
    cbn [fst snd]. split; [done|]. intros v Hv. set_solver.
  - by apply Hsel.
Qed.
End energy_impact_more.

Section energy_impact_converted.
Context `{HybridUtils}.
Import EnergyImpactDecomposer.

(** The samples of a state that went through a call are converted; a
    call on that state does what the call on the state as it was does. *)
Lemma next_converted self state : next self (converted state) = next self state.
Proof.
  unfold next. cbn [converted problem samples]. rewrite best_sample_change.
  destruct (best_sample _ _) as [sample|]; [|done].
  change (prepare self (converted state) sample) with (prepare self state sample).
  set (p := prepare self state sample).
  assert (∀ q lg, select q (converted state) sample lg = select q state sample lg)
    as Hsel.
  { intros q lg. unfold select. cbn [converted problem].
    fold (converted state). by rewrite converted_idem. }
  change (_rewind_rolling p (converted state)) with (_rewind_rolling p state).
  by rewrite !Hsel.
Qed.
End energy_impact_converted.

Lemma next_repeats_without_rolling_witness :
  let self := Inputs.fresh 2 false Inputs.half false
                EnergyImpactDecomposer._energy in
  let state := Inputs.state_of [0; 1; 2; 3] in
  @EnergyImpactDecomposer.next SpecUtils.utils
    (@EnergyImpactDecomposer.next SpecUtils.utils self state).1.1 state
  = @EnergyImpactDecomposer.next SpecUtils.utils self state.
Proof.
  intros self state.
  apply (@next_repeats_without_rolling SpecUtils.utils self state).
  reflexivity.
Defined.

Lemma rolling_selects_unvisited_witness :
  let state := Inputs.state_of [0; 1; 2; 3] in
  let self :=
    (@EnergyImpactDecomposer.next SpecUtils.utils
       (Inputs.fresh 2 true 1%Qc true EnergyImpactDecomposer._energy) state).1.1 in
  let after := (@EnergyImpactDecomposer.next SpecUtils.utils self state).1.1 in
  EnergyImpactDecomposer._unrolled_vars self = list_to_set [0; 1]
  ∧ 2 = length [2; 3]
  ∧ (∀ v, v ∈ [2; 3] -> v ∉ EnergyImpactDecomposer._unrolled_vars self)
  ∧ EnergyImpactDecomposer._unrolled_vars after
    = list_to_set [2; 3] ∪ EnergyImpactDecomposer._unrolled_vars self.
Proof.
  intros state self after.
  split; [vm_compute; reflexivity|].
  destruct (@rolling_selects_unvisited SpecUtils.utils self state "energy"
              2 [2; 3]) as (Hn & _ & Hrest).
  - vm_compute. reflexivity.
  - reflexivity.
  - apply (list_elem_of_lookup_2 _ 0). vm_compute. reflexivity.
  - split; [exact Hn|]. apply Hrest.
    + intros m Hin.
      change ((@EnergyImpactDecomposer.next SpecUtils.utils self state).1.2)
        with [LogSelected 2 [2; 3]] in Hin.
      apply list_elem_of_singleton in Hin. discriminate Hin.
    + vm_compute. reflexivity.
Defined.

Lemma new_problem_forgets_visited_witness :
  let self :=
    (@EnergyImpactDecomposer.next SpecUtils.utils
       (Inputs.fresh 2 true 1%Qc true EnergyImpactDecomposer._energy)
       (Inputs.state_of [0; 1; 2; 3])).1.1 in
  let state := Inputs.state_of [4; 5; 6] in
  let r := @EnergyImpactDecomposer.next SpecUtils.utils self state in
  EnergyImpactDecomposer._unrolled_vars self = list_to_set [0; 1]
  ∧ EnergyImpactDecomposer._rolling_bqm r.1.1 = Some (problem state)
  ∧ 0 ∉ EnergyImpactDecomposer._unrolled_vars r.1.1.
Proof.
  intros self state r.
  split; [vm_compute; reflexivity|].
  destruct (@new_problem_forgets_visited SpecUtils.utils self state)
    as [Hb Hv].
  - vm_compute. reflexivity.
  - vm_compute. reflexivity.
  - split; [exact Hb|]. intros Hin.
    destruct (Hv 0 Hin) as (n & vars & Hlog & H0).
    change ((@EnergyImpactDecomposer.next SpecUtils.utils self state).1.2)
      with [LogSelected 2 [4; 5]] in Hlog.
    apply list_elem_of_singleton in Hlog. injection Hlog as _ ->.
    apply elem_of_cons in H0 as [H0|H0]; [discriminate H0|].
    apply list_elem_of_singleton in H0. discriminate H0.
Defined.

(** ** More on [RandomConstraintDecomposer] *)

Lemma od_get_app {V} (d1 d2 : list (nat * V)) k :
  od_get (d1 ++ d2) k
  = match od_get d1 k with Some v => Some v | None => od_get d2 k end.
Proof.
  induction d1 as [|[k' v] d1 IH]; simpl; [done|].
  by destruct (decide (k' = k)).
Qed.

Lemma adjacent_add_node a g u v : adjacent (add_node a g) u v ↔ adjacent g u v.
Proof.
  unfold add_node, adjacent. destruct (has_node g a); [done|].
  setoid_rewrite od_get_app. simpl. split.
  - intros (ns & Hg & Hv). destruct (od_get g u) as [ns'|]; [eauto|].
    destruct (decide (a = u)); [|done]. injection Hg as <-. by apply elem_of_nil in Hv.
  - intros (ns & Hg & Hv). rewrite Hg. eauto.
Qed.

Lemma od_get_add_half a b (g : Graph) u :
  od_get (add_half a b g) u
  = (fun ns => if decide (u = a)
               then (if decide (b ∈ ns) then ns else ns ++ [b]) else ns)
      <$> od_get g u.
Proof.
  unfold add_half. induction g as [|[w ns] g IH]; [done|].
  rewrite fmap_cons. cbn [fst snd].
  destruct (decide (w = a)) as [->|Hwa]; cbn [od_get].
  - destruct (decide (a = u)) as [->|Hau].
    + simpl. by destruct (decide (u = u)).
    + rewrite IH. destruct (od_get g u); [|done]. simpl.
      by destruct (decide (u = a)).
  - destruct (decide (w = u)) as [->|Hwu].
    + simpl. by destruct (decide (u = a)).
    + rewrite IH. done.
Qed.

Lemma adjacent_add_half a b g u v :
  a ∈ g.*1 ->
  adjacent (add_half a b g) u v ↔ adjacent g u v ∨ (u = a ∧ v = b).
Proof.
  intros Ha. unfold adjacent. setoid_rewrite od_get_add_half. split.
  - intros (ns & Hg & Hv). destruct (od_get g u) as [ns'|]; [|done].
    simpl in Hg. injection Hg as <-.
    destruct (decide (u = a)) as [->|]; [|left; eauto].
    destruct (decide (b ∈ ns')); [left; eauto|].
    apply elem_of_app in Hv as [Hv|Hv]; [left; eauto|].
    apply list_elem_of_singleton in Hv. by right.
  - intros [(ns & Hg & Hv)|[-> ->]].
    + rewrite Hg. simpl. eexists. split; [done|].
      destruct (decide (u = a)); [|done]. destruct (decide (b ∈ ns)); [done|].
      apply elem_of_app. by left.
    + destruct (od_get g a) as [ns|] eqn:Hg.
      2:{ by apply od_get_None in Hg. }
      simpl. eexists. split; [done|]. rewrite decide_True by done.
      destruct (decide (b ∈ ns)); [done|]. apply elem_of_app. right. left.
Qed.

Lemma adjacent_add_edge a b g u v :
  adjacent (add_edge a b g) u v
  ↔ adjacent g u v ∨ (u = a ∧ v = b) ∨ (u = b ∧ v = a).
Proof.
  unfold add_edge.
  rewrite adjacent_add_half.
  2:{ rewrite add_half_nodes. apply elem_of_add_node. by left. }
  rewrite adjacent_add_half.
  2:{ apply elem_of_add_node. right. apply elem_of_add_node. by left. }
  rewrite !adjacent_add_node. tauto.
Qed.

Lemma NoDup_add_node a (g : Graph) : NoDup g.*1 -> NoDup (add_node a g).*1.
Proof.
  unfold add_node, has_node. case_bool_decide as Ha; [done|].
  intros Hg. rewrite fmap_app. apply NoDup_app. split; [done|].
  split; [|apply NoDup_singleton]. intros x Hx Hx'. simpl in Hx'.
  apply list_elem_of_singleton in Hx'. by subst.
Qed.

Lemma NoDup_add_edge a b (g : Graph) : NoDup g.*1 -> NoDup (add_edge a b g).*1.
Proof.
  intros Hg. unfold add_edge. rewrite !add_half_nodes. by do 2 apply NoDup_add_node.
Qed.

Section random_constraint_more.
Import RandomConstraintDecomposer.

(** What holds of the graph that [init] builds carries over every step of
    its two loops. *)
Lemma build_graph_ind (P : Graph -> Prop) cs :
  P [] -> (∀ a b g, P g -> P (add_edge a b g)) -> P (build_graph cs).
Proof.
  intros Hnil Hstep. unfold build_graph.
  generalize (imap (fun ci const => (ci, const)) cs). intros l.
  assert (∀ g, P g -> P (foldl (fun CG p => link_row cs p.1 p.2 CG) g l)) as Hl.
  { induction l as [|p l IH]; intros g Hg; simpl; [done|].
    apply IH. unfold link_row.
    generalize (seq (S p.1) (length cs - S p.1)). intros r. revert g Hg.
    induction r as [|i r IHr]; intros g Hg; simpl; [done|].
    apply IHr. destruct (cs !! i); [|done]. destruct (shares _ _); auto. }
  by apply Hl.
Qed.

Lemma build_graph_NoDup cs : NoDup (build_graph cs).*1.
Proof.
  apply (build_graph_ind (fun g => NoDup g.*1)); [constructor|].
  intros. by apply NoDup_add_edge.
Qed.

Lemma build_graph_closed cs : closed (build_graph cs).
Proof.
  apply (build_graph_ind closed); [|intros; by apply closed_add_edge].
  intros x Hx. apply elem_of_targets in Hx as (p & Hp & _). by apply elem_of_nil in Hp.
Qed.

Lemma link_row_adjacent cs ci const CG u v :
  adjacent (link_row cs ci const CG) u v
  ↔ adjacent CG u v
    ∨ ∃ i other, ci < i ∧ cs !! i = Some other ∧ shares const other = true
                 ∧ ((u = i ∧ v = ci) ∨ (u = ci ∧ v = i)).
Proof.
  unfold link_row.
  assert (∀ i, i ∈ seq (S ci) (length cs - S ci) ↔ ci < i < length cs) as Hseq.
  { intros i. rewrite elem_of_seq. lia. }
  assert (∀ (l : list nat) CG,
    adjacent (foldl (fun CG i =>
                match cs !! i with
                | Some other => if shares const other then add_edge i ci CG else CG
                | None => CG
                end) CG l) u v
    ↔ adjacent CG u v
      ∨ ∃ i other, i ∈ l ∧ cs !! i = Some other ∧ shares const other = true
                   ∧ ((u = i ∧ v = ci) ∨ (u = ci ∧ v = i))) as Hfold.
  { induction l as [|i l IH]; intros g; simpl.
    - split; [by left|]. intros [|(i & o & Hi & _)]; [done|by apply elem_of_nil in Hi].
    - rewrite IH. split.
      + intros [Hg|(j & o & Hj & ?)]; [|right; exists j, o; split; [by right|done]].
        destruct (cs !! i) as [other|] eqn:Hi; [|by left].
        destruct (shares const other) eqn:Hs; [|by left].
        apply adjacent_add_edge in Hg as [|Hg]; [by left|right].
        exists i, other. split; [left|]. tauto.
      + intros [Hg|(j & o & Hj & Hcs & Hs & Huv)].
        * left. destruct (cs !! i) as [other|]; [|done].
          destruct (shares const other); [|done]. apply adjacent_add_edge. by left.
        * apply elem_of_cons in Hj as [->|Hj]; [|right; eauto 10].
          left. rewrite Hcs, Hs. apply adjacent_add_edge. tauto. }
  rewrite Hfold. split.
  - intros [|(i & o & Hi & ?)]; [by left|right]. exists i, o. apply Hseq in Hi.
    split; [lia|done].
  - intros [|(i & o & Hi & Hcs & ?)]; [by left|right]. exists i, o.
    split; [|done]. apply Hseq. split; [done|]. by eapply lookup_lt_Some.
Qed.

Lemma build_graph_adjacent cs u v :
  adjacent (build_graph cs) u v
  ↔ ∃ ci const i other,
      cs !! ci = Some const ∧ ci < i ∧ cs !! i = Some other
      ∧ shares const other = true ∧ ((u = i ∧ v = ci) ∨ (u = ci ∧ v = i)).
Proof.
  unfold build_graph.
  assert (∀ p, p ∈ imap (fun ci const => (ci, const)) cs ↔ cs !! p.1 = Some p.2) as Hp.
  { intros [ci c]. rewrite elem_of_lookup_imap. split.
    - by intros (i & x & [= -> ->] & Hx).
    - intros Hx. by exists ci, c. }
  assert (∀ (l : list (nat * gset nat)) g,
    adjacent (foldl (fun CG p => link_row cs p.1 p.2 CG) g l) u v
    ↔ adjacent g u v
      ∨ ∃ p i other, p ∈ l ∧ p.1 < i ∧ cs !! i = Some other
                     ∧ shares p.2 other = true
                     ∧ ((u = i ∧ v = p.1) ∨ (u = p.1 ∧ v = i))) as Hfold.
  { induction l as [|p l IH]; intros g; simpl.
    - split; [by left|]. intros [|(p & i & o & Hin & _)]; [done|by apply elem_of_nil in Hin].
    - rewrite IH, link_row_adjacent. split.
      + intros [[|(i & o & ?)]|(q & i & o & Hq & ?)].
        * by left.
        * right. exists p, i, o. split; [left|done].
        * right. exists q, i, o. split; [by right|done].
      + intros [|(q & i & o & Hq & Hrest)]; [by left; left|].
        apply elem_of_cons in Hq as [->|Hq]; [left; right; eauto|right; eauto 10]. }
  rewrite Hfold. split.
  - intros [(ns & Hg & _)|(p & i & o & Hin & ?)]; [done|].
    apply Hp in Hin. exists p.1, p.2, i, o. tauto.
  - intros (ci & c & i & o & Hci & ?). right. exists (ci, c), i, o.
    split; [by apply Hp|done].
Qed.

(** Two groups are adjacent in the constraint graph exactly when they are
    different groups with a common variable; the nodes of the graph are
    the groups that have such a neighbour. *)
Theorem constraint_graph_links_sharing_groups (cs : list (gset nat)) (u v : nat) :
  (adjacent (build_graph cs) u v ↔ linked cs u v)
  ∧ (u ∈ (build_graph cs).*1 ↔ ∃ w, linked cs u w).
Proof.
  assert (adjacent (build_graph cs) u v ↔ linked cs u v) as Hadj.
  { rewrite build_graph_adjacent. split.
    - intros (ci & c & i & o & Hci & Hlt & Hi & Hs & Huv).
      apply shares_spec in Hs as (x & Hxc & Hxo).
      destruct Huv as [[-> ->]|[-> ->]]; (split; [lia|]).
      + exists o, c, x. tauto.
      + exists c, o, x. tauto.
    - intros (Hne & cu & cv & x & Hu & Hv & Hxu & Hxv).
      destruct (decide (u < v)).
      + exists u, cu, v, cv. repeat split; [done..| |tauto].
        apply shares_spec. eauto.
      + exists v, cv, u, cu. repeat split; [done|lia|done| |tauto].
        apply shares_spec. eauto. }
  split; [done|]. split.
  - apply build_graph_nodes.
  - intros (w & Hl).
    assert (adjacent (build_graph cs) u w) as (ns & Hg & _).
    { clear Hadj. rewrite build_graph_adjacent.
      destruct Hl as (Hne & cu & cw & x & Hu & Hw & Hxu & Hxw).
      destruct (decide (u < w)).
      + exists u, cu, w, cw. repeat split; [done..| |tauto].
        apply shares_spec. eauto.
      + exists w, cw, u, cu. repeat split; [done|lia|done| |tauto].
        apply shares_spec. eauto. }
    destruct (decide (u ∈ (build_graph cs).*1)) as [|Hn]; [done|].
    apply od_get_None in Hn. congruence.
Qed.

Lemma build_graph_length cs : length (build_graph cs) <= length cs.
Proof.
  assert (length (build_graph cs).*1 <= length (seq 0 (length cs))) as Hle.
  { apply submseteq_length, NoDup_submseteq; [apply build_graph_NoDup|].
    intros x Hx. apply build_graph_nodes in Hx as (j & _ & cx & _ & _ & Hx & _).
    apply elem_of_seq. apply lookup_lt_Some in Hx. lia. }
  by rewrite length_fmap, length_seq in Hle.
Qed.

Lemma accumulate_raises constraints sz vars edges e :
  (∀ x, x ∈ edges -> is_Some (constraints !! x.2)) ->
  accumulate constraints sz vars edges = Raise e -> e = TypeError.
Proof.
  induction edges as [|[u ci] edges IH]; intros Hok; simpl; [done|].
  destruct (Hok (u, ci)) as [const Hc]; [left|]. simpl in Hc. rewrite Hc.
  case_bool_decide; simpl; [by intros [= <-]|].
  case_bool_decide; [done|]. apply IH. intros; apply Hok. by right.
Qed.

(** After [__init__] and [init], the selection of [next] returns one whole
    group no larger than [size], or raises: [IndexError] when the graph is
    empty, [NetworkXError] when the index drawn is not a node of the graph,
    [TypeError] from the accumulation.  The guard that raises
    [NotImplementedError] is never taken. *)
Theorem constraint_selection_outcomes sz cs self0 state self rnd :
  __init__ sz cs = Ok self0 ->
  init self0 state = (self, Ok tt) ->
  match choose self rnd with
  | Ok vars => vars ∈ cs ∧ size vars <= sz
  | Raise e =>
      (e = IndexError ∧ build_graph cs = [])
      ∨ (e = NetworkXError ∧ build_graph cs ≠ []
         ∧ rnd `mod` length (build_graph cs) ∉ (build_graph cs).*1)
      ∨ e = TypeError
  end.
Proof.
  unfold __init__, init. destruct (existsb _ cs) eqn:Hex; [done|].
  intros [= <-]. cbn [self_size constraints]. case_bool_decide; [done|].
  intros [= <-]. unfold choose. cbn [constraint_graph constraints self_size].
  set (CG := build_graph cs). unfold random_choice. rewrite length_seq.
  destruct (decide (CG = [])) as [->|Hne].
  { simpl. left. done. }
  assert (rnd `mod` length CG < length CG) as Hn.
  { apply Nat.mod_upper_bound. by destruct CG. }
  rewrite lookup_seq_lt by done. cbn [mbind result_bind Nat.add].
  set (n := rnd `mod` length CG) in *.
  pose proof (build_graph_length cs) as Hlen. fold CG in Hlen.
  destruct (cs !! n) as [seed|] eqn:Hseed.
  2:{ apply lookup_ge_None in Hseed. lia. }
  assert (size seed <= sz) as Hsize.
  { destruct (decide (size seed <= sz)) as [|Hgt]; [done|].
    assert (existsb (fun const : gset nat => bool_decide (sz < size const)) cs = true)
      as Ht; [|congruence].
    apply existsb_exists. exists seed. split.
    - apply list_elem_of_In. by eapply list_elem_of_lookup_2.
    - apply bool_decide_eq_true_2. lia. }
  rewrite bool_decide_eq_false_2 by lia.
  destruct (bfs_edges CG n) as [edges|e] eqn:Hb; cbn [mbind result_bind].
  - destruct (accumulate cs sz seed edges) as [vars|e] eqn:Ha.
    + apply accumulate_keeps_seed in Ha as ->.
      split; [by eapply list_elem_of_lookup_2|done].
    + right. right. eapply accumulate_raises; [|done].
      intros x Hx. unfold bfs_edges in Hb.
      destruct (neighbors CG n); [|done]. cbn [mbind result_bind] in Hb.
      apply (bfs_loop_targets _ _ _ _ _ _ Hb) in Hx.
      apply build_graph_closed, build_graph_nodes in Hx as (j & _ & cx & _ & _ & Hx & _).
      by rewrite Hx.
  - right. left. apply bfs_edges_raises in Hb as Heq. subst e.
    split; [done|]. split; [done|]. intros Hin.
    apply bfs_edges_total in Hin. by rewrite Hb in Hin.
Qed.
End random_constraint_more.

Lemma constraint_selection_outcomes_witness :
  let cs : list (gset nat) := [{[0; 1]}; {[1; 2]}] in
  let state := Inputs.state_of [0; 1; 2] in
  let self0 :=
    {| RandomConstraintDecomposer.self_size := 2;
       RandomConstraintDecomposer.constraints := cs;
       RandomConstraintDecomposer.constraint_graph := None |} in
  let self := (RandomConstraintDecomposer.init self0 state).1 in
  match RandomConstraintDecomposer.choose self 0 with
  | Ok vars => vars ∈ cs ∧ size vars <= 2
  | Raise e =>
      (e = IndexError ∧ RandomConstraintDecomposer.build_graph cs = [])
      ∨ (e = NetworkXError ∧ RandomConstraintDecomposer.build_graph cs ≠ []
         ∧ 0 `mod` length (RandomConstraintDecomposer.build_graph cs)
           ∉ (RandomConstraintDecomposer.build_graph cs).*1)
      ∨ e = TypeError
  end.
Proof.
  intros cs state self0 self.
  apply (constraint_selection_outcomes 2 cs self0 state self 0).
  - vm_compute. reflexivity.
  - vm_compute. reflexivity.
Defined.

(** ** More on [TilingChimeraDecomposer] *)

Section tiling_more.
Context `{HybridUtils}.
Import TilingChimeraDecomposer.

Lemma run_nothing_saved (self : t) inner index (states : list State) j st :
  blocks self = Some (Cycle inner [] index) ->
  inner = None ∨ inner = Some [] ->
  states !! j = Some st ->
  (run self states).2 !! j = Some (Raise StopIteration).
Proof.
  revert self inner j. induction states as [|s states IH]; intros self inner j Hb Hi Hj;
    [done|].
  assert (iter_next (Cycle inner [] index) = (Cycle None [] index, Raise StopIteration))
    as Hnext by (by destruct Hi as [-> | ->]).
  cbn [run]. unfold next. rewrite Hb, Hnext. simpl.
  destruct j as [|j]; [done|]. simpl in Hj.
  apply (IH _ None j); [done|by left|done].
Qed.

Lemma run_saved (self : t) inner saved index (states : list State) j st :
  blocks self = Some (Cycle inner saved index) ->
  inner = None ∨ inner = Some [] ->
  index < length saved ->
  states !! j = Some st ->
  (run self states).2 !! j
  = Some (drawn st (saved !! ((index + j) `mod` length saved))).
Proof.
  revert self inner index j.
  induction states as [|s states IH]; intros self inner index j Hb Hi Hlt Hj; [done|].
  destruct (lookup_lt_is_Some_2 saved index Hlt) as [b Hsb].
  assert (iter_next (Cycle inner saved index)
          = (Cycle None saved (if bool_decide (S index < length saved)
                               then S index else 0), Ok b)) as Hnext.
  { destruct Hi as [-> | ->]; simpl; unfold cycle_saved; by rewrite Hsb. }
  cbn [run]. unfold next. rewrite Hb, Hnext. simpl.
  destruct j as [|j]; simpl in Hj.
  - injection Hj as ->. rewrite Nat.add_0_r, Nat.mod_small by done. by rewrite Hsb.
  - assert (∀ (x : result State) l, (x :: l) !! S j = l !! j) as Hc by done.
    rewrite Hc.
    rewrite (IH _ None (if bool_decide (S index < length saved) then S index else 0) j);
      [|done|by left| |done].
    + do 3 f_equal. case_bool_decide as Hs; [f_equal; lia|].
      assert (S index = length saved) as Heq by lia.
      replace (index + S j) with (j + 1 * length saved) by lia.
      by rewrite Nat.Div0.mod_add.
    + case_bool_decide; lia.
Qed.

Lemma run_cycle_on (self : t) rest saved (states : list State) i st :
  blocks self = Some (Cycle (Some rest) saved 0) ->
  states !! i = Some st ->
  length rest <= i ->
  (run self states).2 !! i
  = Some (drawn st ((saved ++ rest)
                      !! ((i - length rest) `mod` length (saved ++ rest)))).
Proof.
  revert self saved states i. induction rest as [|b rest IH];
    intros self saved states i Hb Hi Hle.
  - rewrite app_nil_r. cbn [length]. rewrite Nat.sub_0_r.
    destruct saved as [|b0 saved].
    + rewrite (run_nothing_saved self (Some []) 0 states i st); [|done|by right|done].
      done.
    + rewrite (run_saved self (Some []) (b0 :: saved) 0 states i st);
        [done|done|by right|simpl; lia|done].
  - destruct states as [|s states]; [done|].
    destruct i as [|i]; [simpl in Hle; lia|].
    cbn [run]. unfold next. rewrite Hb. simpl. simpl in Hi.
    rewrite (IH (set_blocks self (Cycle (Some rest) (saved ++ [b]) 0))
               (saved ++ [b]) states i); [|done|done|simpl in Hle; lia].
    rewrite <- (assoc_L (++)). done.
Qed.

(** Call [i+1] of [next] after [init]: with looping disabled it delivers
    tile [i] and raises [StopIteration] for good once the tiles are used
    up; with looping enabled it delivers tile [i mod T], round and round
    ([StopIteration] on every call when there is no tile). *)
Theorem tiles_cycle (sz : nat * nat * nat) (state0 : State)
    (states : list State) i st :
  let tl := tiles (__init__ sz false) state0 in
  states !! i = Some st ->
  (run (init (__init__ sz false) state0) states).2 !! i
  = Some (drawn st (tl !! i))
  ∧ (run (init (__init__ sz true) state0) states).2 !! i
    = Some (drawn st (tl !! (i `mod` length tl))).
Proof.
  intros tl Hi. split; [by apply run_list_iter|].
  destruct (decide (i < length tl)) as [Hlt|Hge].
  - rewrite Nat.mod_small by done.
    by apply (run_cycle (init (__init__ sz true) state0) tl [] states i st eq_refl Hi).
  - rewrite (run_cycle_on (init (__init__ sz true) state0) tl [] states i st eq_refl Hi)
      by lia.
    cbn [app]. do 3 f_equal.
    replace i with ((i - length tl) + 1 * length tl) at 2 by lia.
    by rewrite Nat.Div0.mod_add.
Qed.

(** Without [init], [self.blocks] stays [None]: every call of [next]
    raises [TypeError] and leaves the decomposer as [__init__] made it. *)
Theorem next_before_init sz loop (states : list State) :
  (run (__init__ sz loop) states).1 = __init__ sz loop
  ∧ (run (__init__ sz loop) states).2
    = (fun _ => Raise TypeError) <$> states.
Proof.
  induction states as [|s states [IH1 IH2]]; [done|].
  cbn [run].
  change (next (__init__ sz loop) s) with (__init__ sz loop, Raise (A:=State) TypeError).
  cbn [fst snd]. rewrite IH1, IH2. done.
Qed.
End tiling_more.



Lemma tiles_cycle_witness :
  let st := Inputs.state_of [0; 1; 2; 3] in
  let tl := @TilingChimeraDecomposer.tiles SpecUtils.utils
              (TilingChimeraDecomposer.__init__ (1, 1, 1) false) st in
  (@TilingChimeraDecomposer.run SpecUtils.utils
     (@TilingChimeraDecomposer.init SpecUtils.utils
        (TilingChimeraDecomposer.__init__ (1, 1, 1) false) st) [st; st; st]).2 !! 2
  = Some (@drawn SpecUtils.utils st (tl !! 2))
  ∧ (@TilingChimeraDecomposer.run SpecUtils.utils
       (@TilingChimeraDecomposer.init SpecUtils.utils
          (TilingChimeraDecomposer.__init__ (1, 1, 1) true) st) [st; st; st]).2 !! 2
    = Some (@drawn SpecUtils.utils st (tl !! (2 `mod` length tl))).
Proof.
  intros st tl.
  apply (@tiles_cycle SpecUtils.utils (1, 1, 1) st [st; st; st] 2 st).
  reflexivity.
Defined.

(** ** [RandomSubproblemDecomposer.next] *)

Section random_subproblem.
Context `{HybridUtils}.
Import RandomSubproblemDecomposer.

End random_subproblem.

